(** * bot_trade_coinbase: the EMA crossover signal engine and the backtest
    simulator of [backtest.py] (and the fee-free variant of [app.py]).

    Numbers.  The program computes on IEEE doubles.  Here a finite double is
    an exact rational: rounding, overflow and the sign of zero are left out,
    the special values +inf, -inf and NaN are kept, because the program can
    reach them through a division by a zero price.  Python scalars and numpy
    scalars are told apart, because they divide by zero differently: Python
    raises [ZeroDivisionError], numpy returns inf or NaN (with a warning). *)

From Stdlib Require Import QArith Qfield Lqa ZArith List Lia Bool.
Import ListNotations.

Set Implicit Arguments.

Local Open Scope Q_scope.

(** ** Outcomes of a call: a returned value or a raised exception *)

Inductive exn : Type :=
| ValueError
| ZeroDivisionError
| IndexError.

Inductive outcome (A : Type) : Type :=
| Returned (a : A)
| Raised (e : exn).

Arguments Returned {A} a.
Arguments Raised {A} e.

Definition bind {A B : Type} (m : outcome A) (k : A -> outcome B) : outcome B :=
  match m with
  | Returned a => k a
  | Raised e => Raised e
  end.

Notation "x <- m ;; k" := (bind m (fun x => k))
  (at level 61, m at next level, right associativity).

(** ** Doubles: a rational or one of the three special values *)

Module Float.

Inductive fnum : Type :=
| Fin (q : Q)
| PInf
| NInf
| NaN.

Definition fopp (x : fnum) : fnum :=
  match x with
  | Fin q => Fin (- q)
  | PInf => NInf
  | NInf => PInf
  | NaN => NaN
  end.

Definition fadd (x y : fnum) : fnum :=
  match x, y with
  | Fin a, Fin b => Fin (a + b)
  | NaN, _ | _, NaN => NaN
  | PInf, NInf | NInf, PInf => NaN
  | PInf, _ | _, PInf => PInf
  | NInf, _ | _, NInf => NInf
  end.

Definition fsub (x y : fnum) : fnum := fadd x (fopp y).

(** The infinity of the sign of [q] times [inf]; [0 * inf] is NaN. *)
Definition signed_inf (q : Q) (inf : fnum) : fnum :=
  match q ?= 0 with
  | Eq => NaN
  | Gt => inf
  | Lt => fopp inf
  end.

Definition fmul (x y : fnum) : fnum :=
  match x, y with
  | Fin a, Fin b => Fin (a * b)
  | NaN, _ | _, NaN => NaN
  | Fin a, i => signed_inf a i
  | i, Fin b => signed_inf b i
  | PInf, PInf | NInf, NInf => PInf
  | PInf, NInf | NInf, PInf => NInf
  end.

Definition fdiv (x y : fnum) : fnum :=
  match x, y with
  | Fin a, Fin b =>
      if Qeq_bool b 0 then signed_inf a PInf else Fin (a / b)
  | NaN, _ | _, NaN => NaN
  | Fin _, _ => Fin 0
  | i, Fin b => if Qle_bool 0 b then i else fopp i
  | _, _ => NaN
  end.

(** Comparisons; every comparison with NaN is false. *)
Definition flt (x y : fnum) : bool :=
  match x, y with
  | Fin a, Fin b => match a ?= b with Lt => true | _ => false end
  | NaN, _ | _, NaN => false
  | NInf, NInf | PInf, _ | _, NInf => false
  | NInf, _ | _, PInf => true
  end.

Definition feqb (x y : fnum) : bool :=
  match x, y with
  | Fin a, Fin b => Qeq_bool a b
  | PInf, PInf | NInf, NInf => true
  | _, _ => false
  end.

Definition fle (x y : fnum) : bool := flt x y || feqb x y.

Definition is_finite (x : fnum) : bool :=
  match x with Fin _ => true | _ => false end.

Definition qval (x : fnum) : Q :=
  match x with Fin q => q | _ => 0 end.

End Float.
Import Float.

(** ** Scalars as Python sees them *)

Module Scalar.

(** [Py q] is a Python [int] or [float]; [Np x] is a [numpy.float64]. *)
Inductive num : Type :=
| Py (q : Q)
| Np (x : fnum).

Definition val (a : num) : fnum :=
  match a with
  | Py q => Fin q
  | Np x => x
  end.

(** A binary operator stays in Python when both operands are Python
    scalars and is numpy's as soon as one operand is a numpy scalar. *)
Definition nadd (a b : num) : num :=
  match a, b with
  | Py x, Py y => Py (x + y)
  | _, _ => Np (fadd (val a) (val b))
  end.

Definition nsub (a b : num) : num :=
  match a, b with
  | Py x, Py y => Py (x - y)
  | _, _ => Np (fsub (val a) (val b))
  end.

Definition nmul (a b : num) : num :=
  match a, b with
  | Py x, Py y => Py (x * y)
  | _, _ => Np (fmul (val a) (val b))
  end.

(** [a / b]: Python raises on a zero divisor, numpy does not. *)
Definition ndiv (a b : num) : outcome num :=
  match a, b with
  | Py x, Py y =>
      if Qeq_bool y 0 then Raised ZeroDivisionError else Returned (Py (x / y))
  | _, _ => Returned (Np (fdiv (val a) (val b)))
  end.

(** [a / b] where [b] is a numpy scalar read from a DataFrame column. *)
Definition np_div (a : num) (b : fnum) : num := Np (fdiv (val a) b).

Definition ngt (a b : num) : bool := flt (val b) (val a).
Definition nle (a b : num) : bool := fle (val a) (val b).
Definition neqb (a b : num) : bool := feqb (val a) (val b).

Definition finite (a : num) : bool := is_finite (val a).
Definition qv (a : num) : Q := qval (val a).

End Scalar.
Import Scalar.

(** ** pandas: [Series.ewm(span=s, adjust=False).mean()]

    The library's algorithm on a series without missing values: the span is
    checked when the window object is built, turned into a centre of mass
    and then into alpha; the mean is one left-to-right loop over the values
    that keeps a running weighted value and renormalises by the weights. *)

Module Pandas.

(** [get_center_of_mass]: [span < 1] is refused. *)
Definition get_center_of_mass (span : Z) : outcome Q :=
  if (span <? 1)%Z then Raised ValueError
  else Returned ((inject_Z span - 1) / 2).

(** One iteration of the loop of [ewm] with [adjust=False]: the old weight
    restarts from 1 at every observation. *)
Definition ewm_step (alpha : Q) (weighted cur : Q) : Q :=
  let old_wt_factor := 1 - alpha in
  let new_wt := alpha in
  let old_wt := 1 * old_wt_factor in
  if Qeq_bool weighted cur then weighted
  else (old_wt * weighted + new_wt * cur) / (old_wt + new_wt).

Fixpoint ewm_loop (alpha : Q) (weighted : Q) (vals : list Q) : list Q :=
  match vals with
  | [] => []
  | cur :: rest =>
      let weighted' := ewm_step alpha weighted cur in
      weighted' :: ewm_loop alpha weighted' rest
  end.

Definition ewm (com : Q) (vals : list Q) : list Q :=
  let alpha := 1 / (1 + com) in
  match vals with
  | [] => []
  | v0 :: rest => v0 :: ewm_loop alpha v0 rest
  end.

Definition ewm_mean (span : Z) (vals : list Q) : outcome (list Q) :=
  com <- get_center_of_mass span ;;
  Returned (ewm com vals).

End Pandas.

(** ** The signal engine: [calculate_ema_strategy] (the same text in
    [backtest.py] and [app.py]) *)

(** The DataFrame: the close column and the columns the engine adds. *)
Record frame : Type := mkFrame {
  close_col : list Q;
  ema_short : option (list Q);
  ema_long : option (list Q);
  signal_col : option (list Z)
}.

Definition set_ema_short (df : frame) (c : list Q) : frame :=
  mkFrame (close_col df) (Some c) (ema_long df) (signal_col df).

Definition set_ema_long (df : frame) (c : list Q) : frame :=
  mkFrame (close_col df) (ema_short df) (Some c) (signal_col df).

Definition set_signal (df : frame) (c : list Z) : frame :=
  mkFrame (close_col df) (ema_short df) (ema_long df) (Some c).

Definition Qgtb (a b : Q) : bool :=
  match a ?= b with Gt => true | _ => false end.

Definition Qltb (a b : Q) : bool :=
  match a ?= b with Lt => true | _ => false end.

(** [df.loc[mask, "signal"] = v]: the rows where the mask holds get [v]. *)
Fixpoint loc_assign (mask : list bool) (v : Z) (col : list Z) : list Z :=
  match mask, col with
  | m :: mask', x :: col' => (if m then v else x) :: loc_assign mask' v col'
  | _, _ => col
  end.

(** The element-wise comparison of two columns. *)
Fixpoint cmp_cols (f : Q -> Q -> bool) (a b : list Q) : list bool :=
  match a, b with
  | x :: a', y :: b' => f x y :: cmp_cols f a' b'
  | _, _ => []
  end.

(** The function mutates [df] in place and returns it: the result is the
    frame as it is left, and what the call did (returned or raised). *)
Definition calculate_ema_strategy (df : frame) (short_window long_window : Z)
  : frame * outcome unit :=
  match Pandas.ewm_mean short_window (close_col df) with
  | Raised e => (df, Raised e)
  | Returned es =>
      let df1 := set_ema_short df es in
      match Pandas.ewm_mean long_window (close_col df1) with
      | Raised e => (df1, Raised e)
      | Returned el =>
          let df2 := set_ema_long df1 el in
          let df3 := set_signal df2 (repeat 0%Z (length (close_col df2))) in
          let buy := cmp_cols Qgtb es el in
          let df4 := set_signal df3
                       (loc_assign buy 1%Z
                          (match signal_col df3 with Some s => s | None => [] end)) in
          let sell := cmp_cols Qltb es el in
          let df5 := set_signal df4
                       (loc_assign sell (-1)%Z
                          (match signal_col df4 with Some s => s | None => [] end)) in
          (df5, Returned tt)
      end
  end.

(** A frame as the loader hands it over: closes only. *)
Definition load (closes : list Q) : frame := mkFrame closes None None None.

(** ** The backtest simulator of [backtest.py] *)

(** One row of the DataFrame as the simulator reads it. *)
Record bar : Type := mkBar {
  close : Q;
  signal : Z
}.

(** The columns the simulator reads, row by row. *)
Definition rows_of (df : frame) : list bar :=
  map (fun cs => mkBar (fst cs) (snd cs))
      (combine (close_col df)
               (match signal_col df with Some s => s | None => [] end)).

(** [col.iloc[i] = v]; an index out of range raises. *)
Fixpoint iloc_set {A : Type} (i : nat) (v : A) (col : list A) : outcome (list A) :=
  match col, i with
  | [], _ => Raised IndexError
  | _ :: t, O => Returned (v :: t)
  | x :: t, S j => t' <- iloc_set j v t ;; Returned (x :: t')
  end.

(** [col.iloc[-1]] *)
Definition iloc_last {A : Type} (col : list A) : outcome A :=
  match rev col with
  | [] => Raised IndexError
  | x :: _ => Returned x
  end.

Module Backtest.

(** The variables of the first loop. *)
Record state : Type := mkState {
  position : Z;
  entry_price : num;
  capital : num;
  shares : num
}.

(** The body of the first loop, up to the write into the position column. *)
Definition step1 (fee_percent : num) (st : state) (r : bar) : state :=
  let current_signal := signal r in
  let close_price := Np (Fin (close r)) in
  if ((position st =? 0) && (current_signal =? 1))%Z then
    let fee := nmul (capital st) fee_percent in
    let capital_after_fee := nsub (capital st) fee in
    mkState 1 close_price (capital st)
            (np_div capital_after_fee (Fin (close r)))
  else if ((position st =? 1) && (current_signal =? -1))%Z then
    let sell_value := nmul (shares st) close_price in
    let fee := nmul sell_value fee_percent in
    mkState 0 (entry_price st) (nsub sell_value fee) (Py 0)
  else st.

(** [for i in range(1, len(df))]: [rows] are the rows from index [i] on.
    [df["position"].iloc[i] = position] is taken as the write into the
    column of [df] that it is without copy-on-write. *)
Fixpoint loop1 (fee_percent : num) (i : nat) (rows : list bar)
         (st : state) (position_col : list Z) : outcome (state * list Z) :=
  match rows with
  | [] => Returned (st, position_col)
  | r :: rest =>
      let st' := step1 fee_percent st r in
      col' <- iloc_set i (position st') position_col ;;
      loop1 fee_percent (S i) rest st' col'
  end.

(** The sale at the last bar when the first loop ends in position. *)
Definition liquidate (fee_percent : num) (rows : list bar) (st : state)
  : outcome state :=
  if (position st =? 1)%Z then
    last_row <- iloc_last rows ;;
    let last_close := Np (Fin (close last_row)) in
    let sell_value := nmul (shares st) last_close in
    let fee := nmul sell_value fee_percent in
    Returned (mkState 0 (entry_price st) (nsub sell_value fee) (Py 0))
  else Returned st.

(** The variables of the second loop. *)
Record state2 : Type := mkState2 {
  pos : Z;
  entry_p : num;
  cap_temp : num;
  sh : num
}.

Definition step2 (fee_percent : num) (st : state2) (r : bar) : state2 :=
  let sig := signal r in
  let c_price := Np (Fin (close r)) in
  if ((pos st =? 0) && (sig =? 1))%Z then
    let fee := nmul (cap_temp st) fee_percent in
    let cap_temp' := nsub (cap_temp st) fee in
    mkState2 1 c_price cap_temp' (np_div cap_temp' (Fin (close r)))
  else if ((pos st =? 1) && (sig =? -1))%Z then
    let sell_value := nmul (sh st) c_price in
    let fee := nmul sell_value fee_percent in
    mkState2 0 (entry_p st) (nsub sell_value fee) (Py 0)
  else st.

(** What the second loop appends for a bar, after that bar's transition. *)
Definition valuation (st : state2) (r : bar) : num :=
  if (pos st =? 1)%Z then nmul (sh st) (Np (Fin (close r))) else cap_temp st.

(** [for i in range(len(df))]: [rows] are the rows from index [i] on. *)
Fixpoint loop2 (fee_percent : num) (i : nat) (rows : list bar)
         (st : state2) (portfolio_values : list num) : state2 * list num :=
  match rows with
  | [] => (st, portfolio_values)
  | r :: rest =>
      if (i =? 0)%nat then
        loop2 fee_percent (S i) rest st (portfolio_values ++ [cap_temp st])
      else
        let st' := step2 fee_percent st r in
        loop2 fee_percent (S i) rest st' (portfolio_values ++ [valuation st' r])
  end.

(** The DataFrame and the ROI the function returns. *)
Record result : Type := mkResult {
  position_col : list Z;
  portfolio_value : list num;
  roi : num
}.

Definition init_state (initial_capital : Q) : state :=
  mkState 0 (Py 0) (Py initial_capital) (Py 0).

Definition init_state2 (initial_capital : Q) : state2 :=
  mkState2 0 (Py 0) (Py initial_capital) (Py 0).

Definition backtest_ema (rows : list bar) (initial_capital fee_percent : Q)
  : outcome result :=
  let fee := Py fee_percent in
  sc <- loop1 fee 1 (tl rows) (init_state initial_capital)
              (repeat 0%Z (length rows)) ;;
  st <- liquidate fee rows (fst sc) ;;
  let portfolio_values :=
    snd (loop2 fee 0 rows (init_state2 initial_capital) []) in
  q <- ndiv (nsub (capital st) (Py initial_capital)) (Py initial_capital) ;;
  Returned (mkResult (snd sc) portfolio_values (nmul q (Py 100))).

(** The states after each bar of a walk, in order: the trace the loops go
    through, used to state what holds at every index. *)
Fixpoint trace {S : Type} (step : S -> bar -> S) (st : S) (rows : list bar)
  : list S :=
  match rows with
  | [] => []
  | r :: rest => let st' := step st r in st' :: trace step st' rest
  end.

(** The states of the first loop at every index; index 0 is the initial
    state, the loop starts at index 1. *)
Definition states1 (initial_capital fee_percent : Q) (rows : list bar)
  : list state :=
  match rows with
  | [] => []
  | _ :: rest =>
      init_state initial_capital
        :: trace (step1 (Py fee_percent)) (init_state initial_capital) rest
  end.

(** The states of the second loop at every index. *)
Definition states2 (initial_capital fee_percent : Q) (rows : list bar)
  : list state2 :=
  match rows with
  | [] => []
  | _ :: rest =>
      init_state2 initial_capital
        :: trace (step2 (Py fee_percent)) (init_state2 initial_capital) rest
  end.

End Backtest.

(** ** The simulator of [app.py]: no fee, [position] holds the shares *)

Module App.

Record state : Type := mkState {
  position : num;
  balance : num
}.

Definition step (st : state) (r : bar) : state :=
  let c := Np (Fin (close r)) in
  if (signal r =? 1)%Z && neqb (position st) (Py 0) then
    mkState (np_div (balance st) (Fin (close r))) (Py 0)
  else if (signal r =? -1)%Z && ngt (position st) (Py 0) then
    mkState (Py 0) (nmul (position st) c)
  else st.

Definition portfolio_value_at (st : state) (r : bar) : num :=
  nadd (balance st)
       (if ngt (position st) (Py 0)
        then nmul (position st) (Np (Fin (close r)))
        else Py 0).

Fixpoint loop (rows : list bar) (st : state) (portfolio : list num)
  : state * list num :=
  match rows with
  | [] => (st, portfolio)
  | r :: rest =>
      let st' := step st r in
      loop rest st' (portfolio ++ [portfolio_value_at st' r])
  end.

Definition init_state (initial_capital : Q) : state :=
  mkState (Py 0) (Py initial_capital).

Definition backtest_ema (rows : list bar) (initial_capital : Q)
  : outcome (list num * num) :=
  let portfolio := snd (loop rows (init_state initial_capital) []) in
  last_value <- iloc_last portfolio ;;
  q <- ndiv (nsub last_value (Py initial_capital)) (Py initial_capital) ;;
  Returned (portfolio, nmul q (Py 100)).

End App.

(** ** The vocabulary of the specification *)

(** The smoothing parameter of a window. *)
Definition alpha (w : Z) : Q := 2 / (inject_Z w + 1).

(** An EMA column in the recursive form of the specification. *)
Definition ema_recursive (a : Q) (closes ema : list Q) : Prop :=
  length ema = length closes /\
  nth 0 ema 0 = nth 0 closes 0 /\
  forall i, (1 <= i < length closes)%nat ->
    nth i ema 0 == a * nth i closes 0 + (1 - a) * nth (i - 1) ema 0.

(** Buy = 1, Sell = -1, Neutral = 0, from the two EMA values of one bar. *)
Definition signal_of (s l : Q) : Z :=
  match (s ?= l)%Q with
  | Gt => 1%Z
  | Lt => (-1)%Z
  | Eq => 0%Z
  end.

Module Sim.
Import Backtest.

(** The state in which the first loop ends. *)
Definition final1 (initial_capital fee_percent : Q) (rows : list bar) : state :=
  fold_left (step1 (Py fee_percent)) (tl rows) (init_state initial_capital).

(** The values the second loop appends from index 1 on. *)
Fixpoint values (fee_percent : num) (st : state2) (rows : list bar) : list num :=
  match rows with
  | [] => []
  | r :: rest =>
      let st' := step2 fee_percent st r in
      valuation st' r :: values fee_percent st' rest
  end.

Definition curve (initial_capital fee_percent : Q) (rows : list bar) : list num :=
  match rows with
  | [] => []
  | _ :: rest =>
      Py initial_capital
        :: values (Py fee_percent) (init_state2 initial_capital) rest
  end.

(** The mark-to-market value of a state of the first loop at a bar: the
    shares at the close when in position, the cash otherwise, no fee. *)
Definition mark (st : state) (r : bar) : num :=
  if (position st =? 1)%Z then nmul (shares st) (Np (Fin (close r)))
  else capital st.

(** The close of the last bar, [df["close"].iloc[-1]]. *)
Definition last_close (rows : list bar) : Q := close (last rows (mkBar 0 0%Z)).

(** The cash a sale of the shares of [st] at the last close leaves. *)
Definition liquidation_cash (fee_percent : Q) (rows : list bar) (st : state)
  : num :=
  let sell_value := nmul (shares st) (Np (Fin (last_close rows))) in
  nsub sell_value (nmul sell_value (Py fee_percent)).

(** The capital the ROI is computed from. *)
Definition final_cash (initial_capital fee_percent : Q) (rows : list bar)
  : num :=
  let st := final1 initial_capital fee_percent rows in
  if (position st =? 1)%Z then liquidation_cash fee_percent rows st
  else capital st.

(** Two columns read side by side. *)
Definition zip_with {A B C : Type} (f : A -> B -> C) (a : list A) (b : list B)
  : list C :=
  map (fun ab => f (fst ab) (snd ab)) (combine a b).



(** A transition of the position happens at a bar. *)
Definition buys (st : state) (r : bar) : Prop :=
  position st = 0%Z /\ signal r = 1%Z.

Definition sells (st : state) (r : bar) : Prop :=
  position st = 1%Z /\ signal r = (-1)%Z.


(** The two walks agree: same position, same shares, and the same cash
    whenever out of position. *)
Definition agree (st : state) (st2 : state2) : Prop :=
  pos st2 = position st /\
  sh st2 = shares st /\
  (position st = 0%Z \/ position st = 1%Z) /\
  (position st = 0%Z -> cap_temp st2 = capital st).

Definition is_np (a : num) : bool :=
  match a with Np _ => true | Py _ => false end.

(** A state on valid inputs: finite positive cash variable, and either
    Flat without shares or Long with a finite positive number of shares. *)
Definition healthy (st : state) : Prop :=
  finite (capital st) = true /\ finite (shares st) = true /\
  0 < qv (capital st) /\
  ((position st = 0%Z /\ shares st = Py 0) \/
   (position st = 1%Z /\ 0 < qv (shares st))).

(** [s2] is in the same position as [s1] with no more cash and no more
    shares: the relation between two runs that differ in the fee rate. *)
Definition dominated (s1 s2 : state) : Prop :=
  position s2 = position s1 /\
  (position s1 = 0%Z \/ position s1 = 1%Z) /\
  (finite (capital s1) = true /\ finite (capital s2) = true) /\
  (finite (shares s1) = true /\ finite (shares s2) = true) /\
  (0 <= qv (capital s2) /\ qv (capital s2) <= qv (capital s1)) /\
  (0 <= qv (shares s2) /\ qv (shares s2) <= qv (shares s1)).

(** Once a purchase has happened: in position, or holding numpy cash. *)
Definition traded (st : state) : Prop :=
  position st = 1%Z \/ is_np (capital st) = true.

End Sim.
Import Backtest Sim.

(** ** The two buttons of [app.py], once the candles have been fetched *)

Module Ui.

(** The column the engine has stored under ["signal"]. *)
Definition signals (df : frame) : list Z :=
  match signal_col df with Some s => s | None => [] end.

(** What the backtest button ends up showing: the no-data error, the
    message of a caught exception, or the ROI and the curve. *)
Inductive shown : Type :=
| NoData
| Failed (e : exn)
| Report (portfolio : list num) (roi_final : num).

(** The body of [if st.button("Carregar Dados e Backtest")] from
    [if df.empty] to the [st.write] of the ROI; [except Exception] catches
    whatever is raised.  The charts drawn afterwards are left out. *)
Definition on_backtest_button (df : frame) (short_window long_window : Z)
  (initial_capital : Q) : shown :=
  match close_col df with
  | [] => NoData
  | _ :: _ =>
      match calculate_ema_strategy df short_window long_window with
      | (_, Raised e) => Failed e
      | (df', Returned _) =>
          match App.backtest_ema (rows_of df') initial_capital with
          | Raised e => Failed e
          | Returned (portfolio, roi_final) => Report portfolio roi_final
          end
      end
  end.

(** What the real-trade button reports; no order is ever placed. *)
Inductive notice : Type :=
| BuyDetected (current_price : Q)
| SellDetected (current_price : Q)
| NoSignal
| TradeFailed (e : exn).

(** The body of [if st.button("EXECUTAR TRADE REAL")] from the call of the
    engine on; there is no [df.empty] test on this path. *)
Definition on_trade_button (df : frame) (short_window long_window : Z)
  : notice :=
  match calculate_ema_strategy df short_window long_window with
  | (_, Raised e) => TradeFailed e
  | (df', Returned _) =>
      match iloc_last (signals df') with
      | Raised e => TradeFailed e
      | Returned current_signal =>
          match iloc_last (close_col df') with
          | Raised e => TradeFailed e
          | Returned current_price =>
              if (current_signal =? 1)%Z then BuyDetected current_price
              else if (current_signal =? -1)%Z then SellDetected current_price
              else NoSignal
          end
      end
  end.

End Ui.

(** ** Further vocabulary *)

(** A Buy signal on some bar after the first. *)
Definition has_buy (rows : list bar) : bool :=
  existsb (fun r => (signal r =? 1)%Z) (tl rows).

(** The state of [app.py]'s walk next to the state of [backtest.py]'s first
    loop: out of position with the same cash, or in position with the same
    shares, all finite and positive. *)
Definition mirrors (a : App.state) (b : state) : Prop :=
  (position b = 0%Z /\ shares b = Py 0 /\ App.position a = Py 0 /\
   finite (App.balance a) = true /\ finite (capital b) = true /\
   qv (App.balance a) == qv (capital b) /\ 0 < qv (capital b)) \/
  (position b = 1%Z /\ App.balance a = Py 0 /\
   finite (App.position a) = true /\ finite (shares b) = true /\
   qv (App.position a) == qv (shares b) /\ 0 < qv (shares b)).

(** How the second loop's state stands to the first loop's at the same
    bar: same position and shares, the same cash out of position, and in
    position the first loop's cash less the fee paid on entry. *)
Definition cash_gap (fee_percent : num) (st : state) (s2 : state2) : Prop :=
  pos s2 = position st /\
  sh s2 = shares st /\
  (position st = 0%Z \/ position st = 1%Z) /\
  (position st = 0%Z -> cap_temp s2 = capital st) /\
  (position st = 1%Z ->
   cap_temp s2 = nsub (capital st) (nmul (capital st) fee_percent)).

(** Two values are the same number. *)
Definition same_value (a b : num) : Prop :=
  finite a = true /\ finite b = true /\ qv a == qv b.

(** * Proofs *)

(** ** Rational arithmetic helpers *)

Lemma Qeq_bool_false_neq (a b : Q) : ~ a == b -> Qeq_bool a b = false.
Proof.
  intro H. destruct (Qeq_bool a b) eqn:E; [|reflexivity].
  apply Qeq_bool_eq in E. contradiction.
Qed.

Lemma Qeq_bool_true_eq (a b : Q) : a == b -> Qeq_bool a b = true.
Proof. apply Qeq_eq_bool. Qed.

Lemma inject_Z_ge1 (w : Z) : (1 <= w)%Z -> 1 <= inject_Z w.
Proof.
  intro H. change 1 with (inject_Z 1). rewrite <- Zle_Qle. exact H.
Qed.

(** ** The EMA of pandas in recursive form *)

Section Ewm.

Import Pandas.

Lemma alpha_of_span (w : Z) :
  (1 <= w)%Z -> 1 / (1 + (inject_Z w - 1) / 2) == alpha w.
Proof.
  intro H. apply inject_Z_ge1 in H. unfold alpha. field. lra.
Qed.

Lemma ewm_step_recursive (a w c : Q) :
  ewm_step a w c == a * c + (1 - a) * w.
Proof.
  unfold ewm_step. destruct (Qeq_bool w c) eqn:E.
  - apply Qeq_bool_eq in E. rewrite E. ring.
  - field. intro H. ring_simplify in H. discriminate H.
Qed.

Lemma ewm_step_compat (a b w c : Q) :
  a == b -> ewm_step a w c == ewm_step b w c.
Proof.
  intro H. rewrite !ewm_step_recursive. rewrite H. reflexivity.
Qed.

Lemma ewm_loop_length (a w : Q) (vals : list Q) :
  length (ewm_loop a w vals) = length vals.
Proof.
  revert w. induction vals as [|c rest IH]; intro w; simpl; [reflexivity|].
  now rewrite IH.
Qed.

(** The loop started at [w]: each output is one step from the previous
    output, the first one from [w]. *)
Lemma ewm_loop_nth (a w : Q) (vals : list Q) (i : nat) :
  (i < length vals)%nat ->
  nth i (ewm_loop a w vals) 0 ==
  a * nth i vals 0 + (1 - a) * nth i (w :: ewm_loop a w vals) 0.
Proof.
  revert w i. induction vals as [|c rest IH]; intros w i Hi; simpl in Hi.
  - lia.
  - destruct i as [|i].
    + simpl. apply ewm_step_recursive.
    + change (nth (S i) (ewm_loop a w (c :: rest)) 0)
        with (nth i (ewm_loop a (ewm_step a w c) rest) 0).
      change (nth (S i) (c :: rest) 0) with (nth i rest 0).
      change (nth (S i) (w :: ewm_loop a w (c :: rest)) 0)
        with (nth i (ewm_step a w c :: ewm_loop a (ewm_step a w c) rest) 0).
      apply IH. lia.
Qed.

Lemma ewm_length (com : Q) (vals : list Q) :
  length (ewm com vals) = length vals.
Proof.
  destruct vals as [|v0 rest]; simpl; [reflexivity|].
  now rewrite ewm_loop_length.
Qed.

Lemma ewm_recursive (com : Q) (vals : list Q) :
  ema_recursive (1 / (1 + com)) vals (ewm com vals).
Proof.
  split; [apply ewm_length|]. split.
  - destruct vals; reflexivity.
  - intros i Hi. destruct vals as [|v0 rest]; simpl in Hi; [lia|].
    destruct i as [|i]; [lia|].
    replace (S i - 1)%nat with i by lia.
    unfold ewm.
    change (nth (S i) (v0 :: ewm_loop (1 / (1 + com)) v0 rest) 0)
      with (nth i (ewm_loop (1 / (1 + com)) v0 rest) 0).
    change (nth (S i) (v0 :: rest) 0) with (nth i rest 0).
    apply ewm_loop_nth. lia.
Qed.

Lemma ema_recursive_compat (a b : Q) (closes ema : list Q) :
  a == b -> ema_recursive a closes ema -> ema_recursive b closes ema.
Proof.
  intros Hab (Hl & H0 & Hr). split; [exact Hl|]. split; [exact H0|].
  intros i Hi. rewrite (Hr i Hi). rewrite Hab. reflexivity.
Qed.

Lemma ewm_mean_valid (w : Z) (vals : list Q) :
  (1 <= w)%Z ->
  ewm_mean w vals = Returned (ewm ((inject_Z w - 1) / 2) vals).
Proof.
  intro H. unfold ewm_mean, get_center_of_mass.
  destruct (w <? 1)%Z eqn:E; [apply Z.ltb_lt in E; lia|reflexivity].
Qed.

Lemma ewm_mean_invalid (w : Z) (vals : list Q) :
  (w < 1)%Z -> ewm_mean w vals = Raised ValueError.
Proof.
  intro H. unfold ewm_mean, get_center_of_mass.
  apply Z.ltb_lt in H. now rewrite H.
Qed.

Lemma ewm_mean_recursive (w : Z) (vals : list Q) :
  (1 <= w)%Z ->
  exists ema, ewm_mean w vals = Returned ema /\ ema_recursive (alpha w) vals ema.
Proof.
  intro H. eexists. split; [apply ewm_mean_valid; exact H|].
  eapply ema_recursive_compat; [apply alpha_of_span; exact H|].
  apply ewm_recursive.
Qed.

End Ewm.

(** ** The signal engine *)

Section Engine.

Import Pandas.

Lemma cmp_cols_nth (f : Q -> Q -> bool) (a b : list Q) (i : nat) :
  length a = length b -> (i < length a)%nat ->
  nth i (cmp_cols f a b) false = f (nth i a 0) (nth i b 0).
Proof.
  revert b i. induction a as [|x a IH]; intros [|y b] i Hl Hi;
    simpl in *; try lia; try discriminate.
  destruct i as [|i]; [reflexivity|]. apply IH; lia.
Qed.

Lemma loc_assign_length (mask : list bool) (v : Z) (col : list Z) :
  length (loc_assign mask v col) = length col.
Proof.
  revert col. induction mask as [|m mask IH]; intros [|x col]; simpl; auto.
Qed.

Lemma loc_assign_nth (mask : list bool) (v : Z) (col : list Z) (i : nat) :
  (i < length col)%nat ->
  nth i (loc_assign mask v col) 0%Z
  = if nth i mask false then v else nth i col 0%Z.
Proof.
  revert col i. induction mask as [|m mask IH]; intros col i Hi.
  - simpl. destruct i; reflexivity.
  - destruct col as [|x col]; simpl in Hi; [lia|].
    destruct i as [|i]; simpl; [reflexivity|]. apply IH. lia.
Qed.

Lemma nth_repeat_zero (n i : nat) : nth i (repeat 0%Z n) 0%Z = 0%Z.
Proof.
  revert i. induction n as [|n IH]; intros [|i]; simpl; auto.
Qed.

(** The three assignments to the signal column, read at one index. *)
Lemma signal_column_nth (es el : list Q) (n i : nat) :
  length es = n -> length el = n -> (i < n)%nat ->
  nth i (loc_assign (cmp_cols Qltb es el) (-1)%Z
           (loc_assign (cmp_cols Qgtb es el) 1%Z (repeat 0%Z n))) 0%Z
  = signal_of (nth i es 0) (nth i el 0).
Proof.
  intros Hs Hl Hi.
  rewrite loc_assign_nth
    by (rewrite loc_assign_length, repeat_length; exact Hi).
  rewrite loc_assign_nth by (rewrite repeat_length; exact Hi).
  rewrite !cmp_cols_nth by lia.
  rewrite nth_repeat_zero.
  unfold Qltb, Qgtb, signal_of.
  destruct (nth i es 0 ?= nth i el 0); reflexivity.
Qed.

(** With both windows valid the call returns, and leaves these columns. *)
Lemma calculate_ema_strategy_valid (df : frame) (sw lw : Z) :
  (1 <= sw)%Z -> (1 <= lw)%Z ->
  let es := ewm ((inject_Z sw - 1) / 2) (close_col df) in
  let el := ewm ((inject_Z lw - 1) / 2) (close_col df) in
  calculate_ema_strategy df sw lw
  = (mkFrame (close_col df) (Some es) (Some el)
       (Some (loc_assign (cmp_cols Qltb es el) (-1)%Z
                (loc_assign (cmp_cols Qgtb es el) 1%Z
                   (repeat 0%Z (length (close_col df)))))),
     Returned tt).
Proof.
  intros Hs Hl es el. unfold calculate_ema_strategy.
  rewrite (ewm_mean_valid (close_col df) Hs). cbn [set_ema_short close_col].
  rewrite (ewm_mean_valid (close_col df) Hl). reflexivity.
Qed.

End Engine.

(** C1. For a non-empty close series and windows of at least 1, the engine
    returns, and both EMA columns it leaves satisfy the recursive definition
    with alpha = 2/(w+1): the first value is the first close, and every
    later value is alpha*close[i] + (1-alpha)*ema[i-1]. *)
Theorem ema_columns_recursive (df : frame) (short_window long_window : Z) :
  close_col df <> [] ->
  (1 <= short_window)%Z -> (1 <= long_window)%Z ->
  exists df' es el,
    calculate_ema_strategy df short_window long_window = (df', Returned tt) /\
    close_col df' = close_col df /\
    ema_short df' = Some es /\
    ema_long df' = Some el /\
    ema_recursive (alpha short_window) (close_col df) es /\
    ema_recursive (alpha long_window) (close_col df) el.
Proof.
  intros _ Hs Hl.
  rewrite (calculate_ema_strategy_valid df Hs Hl).
  do 3 eexists. split; [reflexivity|]. cbn [close_col ema_short ema_long].
  repeat split; try reflexivity.
  - apply ewm_length.
  - destruct (close_col df); reflexivity.
  - apply (ema_recursive_compat (alpha_of_span Hs)), ewm_recursive.
  - apply ewm_length.
  - destruct (close_col df); reflexivity.
  - apply (ema_recursive_compat (alpha_of_span Hl)), ewm_recursive.
Qed.

Lemma ema_columns_recursive_witness :
  exists df' es el,
    calculate_ema_strategy (load [10; 20; 10]) 1 2 = (df', Returned tt) /\
    close_col df' = [10; 20; 10] /\
    ema_short df' = Some es /\
    ema_long df' = Some el /\
    ema_recursive (alpha 1) [10; 20; 10] es /\
    ema_recursive (alpha 2) [10; 20; 10] el.
Proof.
  apply (@ema_columns_recursive (load [10; 20; 10]) 1 2).
  - discriminate.
  - lia.
  - lia.
Defined.

(** C2. With valid windows the engine returns; the two EMA columns and the
    signal column have one entry per bar, the EMA columns are the EMAs of
    the closes, and the signal at index i is determined by the two EMA
    values at index i alone: 1 when the short EMA is above the long one, -1
    when it is below, 0 when they are equal. *)
Theorem signal_pointwise (df : frame) (short_window long_window : Z) :
  (1 <= short_window)%Z -> (1 <= long_window)%Z ->
  exists df' es el sg,
    calculate_ema_strategy df short_window long_window = (df', Returned tt) /\
    close_col df' = close_col df /\
    ema_short df' = Some es /\
    ema_long df' = Some el /\
    signal_col df' = Some sg /\
    ema_recursive (alpha short_window) (close_col df) es /\
    ema_recursive (alpha long_window) (close_col df) el /\
    length es = length (close_col df) /\
    length el = length (close_col df) /\
    length sg = length (close_col df) /\
    forall i, (i < length (close_col df))%nat ->
      exists s l,
        nth_error es i = Some s /\
        nth_error el i = Some l /\
        nth_error sg i = Some (signal_of s l).
Proof.
  intros Hs Hl.
  rewrite (calculate_ema_strategy_valid df Hs Hl).
  do 4 eexists. split; [reflexivity|].
  cbn [close_col ema_short ema_long signal_col].
  do 4 (split; [reflexivity|]).
  split; [apply (ema_recursive_compat (alpha_of_span Hs)), ewm_recursive|].
  split; [apply (ema_recursive_compat (alpha_of_span Hl)), ewm_recursive|].
  split; [apply ewm_length|]. split; [apply ewm_length|].
  assert (Hsg : length
                  (loc_assign
                     (cmp_cols Qltb
                        (Pandas.ewm ((inject_Z short_window - 1) / 2)
                           (close_col df))
                        (Pandas.ewm ((inject_Z long_window - 1) / 2)
                           (close_col df))) (-1)%Z
                     (loc_assign
                        (cmp_cols Qgtb
                           (Pandas.ewm ((inject_Z short_window - 1) / 2)
                              (close_col df))
                           (Pandas.ewm ((inject_Z long_window - 1) / 2)
                              (close_col df))) 1%Z
                        (repeat 0%Z (length (close_col df)))))
                = length (close_col df)).
  { rewrite !loc_assign_length. apply repeat_length. }
  split; [exact Hsg|].
  intros i Hi. do 2 eexists.
  split; [apply nth_error_nth' with (d := 0); now rewrite ewm_length|].
  split; [apply nth_error_nth' with (d := 0); now rewrite ewm_length|].
  rewrite (nth_error_nth' _ 0%Z) by (rewrite Hsg; exact Hi).
  f_equal. apply signal_column_nth; [apply ewm_length .. | exact Hi].
Qed.

Lemma signal_pointwise_witness :
  exists df' es el sg,
    calculate_ema_strategy (load [10; 20; 10]) 1 2 = (df', Returned tt) /\
    close_col df' = [10; 20; 10] /\
    ema_short df' = Some es /\
    ema_long df' = Some el /\
    signal_col df' = Some sg /\
    ema_recursive (alpha 1) [10; 20; 10] es /\
    ema_recursive (alpha 2) [10; 20; 10] el /\
    length es = 3%nat /\
    length el = 3%nat /\
    length sg = 3%nat /\
    forall i, (i < 3)%nat ->
      exists s l,
        nth_error es i = Some s /\
        nth_error el i = Some l /\
        nth_error sg i = Some (signal_of s l).
Proof.
  apply (@signal_pointwise (load [10; 20; 10]) 1 2); lia.
Defined.

(** ** The loops of the simulator and the traces they go through *)

Section Loops.

Lemma iloc_set_in_range {A : Type} (i : nat) (v : A) (col : list A) :
  (i < length col)%nat ->
  iloc_set i v col = Returned (firstn i col ++ v :: skipn (S i) col).
Proof.
  revert i. induction col as [|x col IH]; intros i Hi; simpl in Hi; [lia|].
  destruct i as [|i]; [reflexivity|].
  cbn [iloc_set]. rewrite IH by lia. reflexivity.
Qed.

Lemma iloc_last_app {A : Type} (l : list A) (x : A) :
  iloc_last (l ++ [x]) = Returned x.
Proof. unfold iloc_last. rewrite rev_app_distr. reflexivity. Qed.

Lemma combine_app_same {A B : Type} (a a' : list A) (b b' : list B) :
  length a = length b ->
  combine (a ++ a') (b ++ b') = combine a b ++ combine a' b'.
Proof.
  revert b. induction a as [|x a IH]; intros [|y b] H;
    simpl in H; try discriminate; [reflexivity|].
  cbn. f_equal. apply IH. lia.
Qed.

Lemma last_cons {A : Type} (x d : A) (l : list A) :
  last (x :: l) d = last l x.
Proof.
  revert x d. induction l as [|a l IH]; intros x d; [reflexivity|].
  change (last (x :: a :: l) d) with (last (a :: l) d).
  now rewrite (IH a d), (IH a x).
Qed.

Lemma iloc_last_cons {A : Type} (x : A) (l : list A) :
  iloc_last (x :: l) = Returned (last l x).
Proof.
  destruct (exists_last (l := x :: l)) as (l' & y & E); [discriminate|].
  rewrite <- (last_cons x x l), E, iloc_last_app, last_last. reflexivity.
Qed.

Variable fee : num.

Lemma trace_length {S : Type} (step : S -> bar -> S) (st : S) (rows : list bar) :
  length (trace step st rows) = length rows.
Proof.
  revert st. induction rows as [|r rest IH]; intro st; simpl; [reflexivity|].
  now rewrite IH.
Qed.

(** The first loop writes the positions of its trace from index [i] on and
    ends in the last state of the trace. *)
Lemma loop1_trace (rows : list bar) :
  forall (i : nat) (st : state) (col : list Z),
    (i + length rows = length col)%nat ->
    loop1 fee i rows st col
    = Returned (fold_left (step1 fee) rows st,
                firstn i col ++ map position (trace (step1 fee) st rows)).
Proof.
  induction rows as [|r rest IH]; intros i st col Hl; simpl in Hl.
  - cbn. rewrite Nat.add_0_r in Hl. subst i.
    rewrite firstn_all, app_nil_r. reflexivity.
  - cbn [loop1 fold_left trace map].
    rewrite iloc_set_in_range by lia. cbn [bind].
    rewrite IH.
    + f_equal. f_equal.
      replace (S i) with (length (firstn i col) + 1)%nat
        by (rewrite length_firstn; lia).
      rewrite firstn_app_2.
      cbn [firstn]. rewrite <- app_assoc. reflexivity.
    + rewrite length_app, length_firstn. cbn [length].
      rewrite length_skipn. lia.
Qed.

(** The second loop appends the initial cash at index 0 and the valuations
    of its trace afterwards. *)
Lemma loop2_values (rows : list bar) :
  forall (i : nat) (st : state2) (acc : list num),
    (1 <= i)%nat ->
    loop2 fee i rows st acc
    = (fold_left (step2 fee) rows st, acc ++ values fee st rows).
Proof.
  induction rows as [|r rest IH]; intros i st acc Hi.
  - cbn. now rewrite app_nil_r.
  - cbn [loop2 fold_left values].
    destruct (Nat.eqb_spec i 0) as [->|_]; [lia|].
    rewrite IH by lia. rewrite <- app_assoc. reflexivity.
Qed.

Lemma values_length (st : state2) (rows : list bar) :
  length (values fee st rows) = length rows.
Proof.
  revert st. induction rows as [|r rest IH]; intro st; simpl; [reflexivity|].
  now rewrite IH.
Qed.

Lemma step_agree (st : state) (st2 : state2) (r : bar) :
  agree st st2 -> agree (step1 fee st r) (step2 fee st2 r).
Proof.
  intros (Hp & Hs & H01 & Hc). unfold step1, step2. rewrite Hp, Hs.
  destruct H01 as [H0|H1].
  - rewrite H0, (Hc H0). cbn [Z.eqb andb].
    destruct (signal r =? 1)%Z; unfold agree; cbn;
      repeat split; auto; congruence.
  - rewrite H1. cbn [Z.eqb andb].
    destruct (signal r =? -1)%Z; unfold agree; cbn;
      repeat split; auto; congruence.
Qed.

Lemma valuation_mark (st : state) (st2 : state2) (r : bar) :
  agree st st2 -> valuation st2 r = mark st r.
Proof.
  intros (Hp & Hs & H01 & Hc). unfold valuation, mark. rewrite Hp, Hs.
  destruct H01 as [H0|H1].
  - rewrite H0. cbn. auto.
  - rewrite H1. reflexivity.
Qed.

Lemma trace_positions_agree (rows : list bar) :
  forall st st2, agree st st2 ->
    map position (trace (step1 fee) st rows)
    = map pos (trace (step2 fee) st2 rows).
Proof.
  induction rows as [|r rest IH]; intros st st2 H; [reflexivity|].
  cbn [trace map]. pose proof (step_agree r H) as H'.
  f_equal; [symmetry; apply H'|]. apply IH, H'.
Qed.

Lemma values_mark (rows : list bar) :
  forall st st2, agree st st2 ->
    values fee st2 rows = zip_with mark (trace (step1 fee) st rows) rows.
Proof.
  induction rows as [|r rest IH]; intros st st2 H; [reflexivity|].
  unfold zip_with.
  cbn [values trace combine map fst snd]. pose proof (step_agree r H) as H'.
  f_equal; [apply valuation_mark, H'|]. apply IH, H'.
Qed.

(** The last state of a trace is where the fold ends. *)
Lemma trace_last {S : Type} (step : S -> bar -> S) (rows : list bar) :
  forall st d : S,
    last (st :: trace step st rows) d = fold_left step rows st.
Proof.
  induction rows as [|r rest IH]; intros st d; [reflexivity|].
  cbn [trace fold_left]. rewrite <- (IH (step st r) d). reflexivity.
Qed.

(** Each state of a trace is one step from the state before it. *)
Lemma trace_nth_step {S : Type} (step : S -> bar -> S) (rows : list bar) :
  forall (st s : S) (i : nat) (r : bar),
    nth_error (st :: trace step st rows) i = Some s ->
    nth_error rows i = Some r ->
    nth_error (trace step st rows) i = Some (step s r).
Proof.
  induction rows as [|r0 rest IH]; intros st s i r Hs Hr.
  - destruct i; discriminate.
  - destruct i as [|i].
    + cbn in *. inversion Hs. inversion Hr. reflexivity.
    + cbn [trace nth_error] in *. apply IH; assumption.
Qed.

End Loops.

(** ** The simulator as a whole *)

Section Simulator.

Variables (initial_capital fee_percent : Q).

Lemma agree_init : agree (init_state initial_capital) (init_state2 initial_capital).
Proof. unfold agree; cbn; auto. Qed.

Lemma step1_position_01 (f : num) (st : state) (r : bar) :
  (position st = 0%Z \/ position st = 1%Z) ->
  position (step1 f st r) = 0%Z \/ position (step1 f st r) = 1%Z.
Proof.
  intro H. unfold step1.
  destruct ((position st =? 0) && (signal r =? 1))%Z; [cbn; auto|].
  destruct ((position st =? 1) && (signal r =? -1))%Z; cbn; auto.
Qed.

(** A walk that ends in position has walked over at least one bar. *)
Lemma fold_step1_long_nonempty (f : num) (rows : list bar) (st : state) :
  position st = 0%Z -> position (fold_left (step1 f) rows st) = 1%Z ->
  rows <> [].
Proof. intros H0 H1 ->. cbn in H1. lia. Qed.

Lemma liquidate_final1 (rows : list bar) :
  let st := final1 initial_capital fee_percent rows in
  liquidate (Py fee_percent) rows st
  = Returned (if (position st =? 1)%Z
              then mkState 0 (entry_price st)
                     (liquidation_cash fee_percent rows st) (Py 0)
              else st).
Proof.
  intro st. unfold liquidate.
  destruct (position st =? 1)%Z eqn:E; [|reflexivity].
  apply Z.eqb_eq in E.
  destruct rows as [|r0 rest].
  - cbn in E. lia.
  - rewrite iloc_last_cons. cbn [bind].
    unfold liquidation_cash, last_close. rewrite last_cons. reflexivity.
Qed.

(** The call, with the loops replaced by what they compute. *)
Lemma backtest_ema_unfold (rows : list bar) :
  backtest_ema rows initial_capital fee_percent
  = (q <- ndiv (nsub (final_cash initial_capital fee_percent rows)
                     (Py initial_capital)) (Py initial_capital) ;;
     Returned (mkResult
                 (map position (states1 initial_capital fee_percent rows))
                 (curve initial_capital fee_percent rows)
                 (nmul q (Py 100)))).
Proof.
  unfold backtest_ema.
  assert (H1 : loop1 (Py fee_percent) 1 (tl rows) (init_state initial_capital)
                 (repeat 0%Z (length rows))
               = Returned (final1 initial_capital fee_percent rows,
                           map position
                             (states1 initial_capital fee_percent rows))).
  { destruct rows as [|r0 rest]; [reflexivity|].
    cbn [tl length repeat].
    rewrite loop1_trace by (cbn [length]; rewrite repeat_length; lia).
    reflexivity. }
  rewrite H1. cbn [bind fst snd].
  pose proof (liquidate_final1 rows) as H2. cbv zeta in H2.
  rewrite H2. cbn [bind].
  assert (H3 : snd (loop2 (Py fee_percent) 0 rows
                      (init_state2 initial_capital) [])
               = curve initial_capital fee_percent rows).
  { destruct rows as [|r0 rest]; [reflexivity|].
    cbn [loop2 Nat.eqb]. rewrite loop2_values by lia. reflexivity. }
  rewrite H3. unfold final_cash.
  destruct (position (final1 initial_capital fee_percent rows) =? 1)%Z;
    reflexivity.
Qed.

Lemma ndiv_py_nonzero (a : num) (y : Q) :
  ~ y == 0 -> exists q, ndiv a (Py y) = Returned q.
Proof.
  intro H. destruct a as [x|x]; cbn.
  - rewrite (Qeq_bool_false_neq H). eauto.
  - eauto.
Qed.

Lemma ndiv_np (a b : num) :
  is_np a = true -> ndiv a b = Returned (Np (fdiv (val a) (val b))).
Proof. destruct a; [discriminate|]. reflexivity. Qed.

Lemma backtest_ema_returns (rows : list bar) :
  ~ initial_capital == 0 ->
  exists res, backtest_ema rows initial_capital fee_percent = Returned res.
Proof.
  intro H. rewrite backtest_ema_unfold.
  destruct (ndiv_py_nonzero
              (nsub (final_cash initial_capital fee_percent rows)
                    (Py initial_capital)) H) as (q & ->).
  cbn [bind]. eauto.
Qed.

(** The curve is the mark-to-market value of the first loop's states. *)
Lemma curve_mark (rows : list bar) :
  curve initial_capital fee_percent rows
  = zip_with mark (states1 initial_capital fee_percent rows) rows.
Proof.
  destruct rows as [|r0 rest]; [reflexivity|].
  unfold curve, states1, zip_with. cbn [combine map fst snd].
  f_equal. apply (values_mark (Py fee_percent) rest agree_init).
Qed.

(** The curve is the valuation of the second loop's states. *)
Lemma curve_valuation (rows : list bar) :
  curve initial_capital fee_percent rows
  = zip_with valuation (states2 initial_capital fee_percent rows) rows.
Proof.
  destruct rows as [|r0 rest]; [reflexivity|].
  unfold curve, states2, zip_with. cbn [combine map fst snd].
  f_equal. generalize (init_state2 initial_capital).
  induction rest as [|r rest IH]; intro st; [reflexivity|].
  cbn [values trace combine map fst snd]. f_equal. apply IH.
Qed.

Lemma states_positions_agree (rows : list bar) :
  map position (states1 initial_capital fee_percent rows)
  = map pos (states2 initial_capital fee_percent rows).
Proof.
  destruct rows as [|r0 rest]; [reflexivity|].
  unfold states1, states2. cbn [map]. f_equal.
  apply trace_positions_agree, agree_init.
Qed.

Lemma final1_last (rows : list bar) (d : state) :
  rows <> [] ->
  last (states1 initial_capital fee_percent rows) d
  = final1 initial_capital fee_percent rows.
Proof.
  destruct rows as [|r0 rest]; [congruence|]. intros _.
  unfold states1, final1. apply trace_last.
Qed.

End Simulator.

(** ** Transitions *)

Section Transitions.

Variables (initial_capital fee_percent : Q).

Lemma states1_step (rows : list bar) (i : nat) (st : state) (r : bar) :
  nth_error (states1 initial_capital fee_percent rows) i = Some st ->
  nth_error rows (S i) = Some r ->
  nth_error (states1 initial_capital fee_percent rows) (S i)
  = Some (step1 (Py fee_percent) st r).
Proof.
  destruct rows as [|r0 rest]; [destruct i; discriminate|].
  unfold states1. cbn [nth_error]. apply trace_nth_step.
Qed.

Lemma states2_step (rows : list bar) (i : nat) (st : state2) (r : bar) :
  nth_error (states2 initial_capital fee_percent rows) i = Some st ->
  nth_error rows (S i) = Some r ->
  nth_error (states2 initial_capital fee_percent rows) (S i)
  = Some (step2 (Py fee_percent) st r).
Proof.
  destruct rows as [|r0 rest]; [destruct i; discriminate|].
  unfold states2. cbn [nth_error]. apply trace_nth_step.
Qed.

Lemma step1_buy (f : num) (st : state) (r : bar) :
  position st = 0%Z -> signal r = 1%Z ->
  step1 f st r
  = mkState 1 (Np (Fin (close r))) (capital st)
      (np_div (nsub (capital st) (nmul (capital st) f)) (Fin (close r))).
Proof. intros Hp Hs. unfold step1. rewrite Hp, Hs. reflexivity. Qed.

Lemma step1_sell (f : num) (st : state) (r : bar) :
  position st = 1%Z -> signal r = (-1)%Z ->
  step1 f st r
  = let sell_value := nmul (shares st) (Np (Fin (close r))) in
    mkState 0 (entry_price st) (nsub sell_value (nmul sell_value f)) (Py 0).
Proof. intros Hp Hs. unfold step1. rewrite Hp, Hs. reflexivity. Qed.

Lemma step1_hold (f : num) (st : state) (r : bar) :
  ~ buys st r -> ~ sells st r -> step1 f st r = st.
Proof.
  intros Hb Hs. unfold step1, buys, sells in *.
  destruct (Z.eqb_spec (position st) 0), (Z.eqb_spec (signal r) 1);
    cbn [andb]; try tauto;
  destruct (Z.eqb_spec (position st) 1), (Z.eqb_spec (signal r) (-1));
    cbn [andb]; tauto.
Qed.

Lemma step2_buy (f : num) (st : state2) (r : bar) :
  pos st = 0%Z -> signal r = 1%Z ->
  step2 f st r
  = let cap := nsub (cap_temp st) (nmul (cap_temp st) f) in
    mkState2 1 (Np (Fin (close r))) cap (np_div cap (Fin (close r))).
Proof. intros Hp Hs. unfold step2. rewrite Hp, Hs. reflexivity. Qed.

Lemma step2_sell (f : num) (st : state2) (r : bar) :
  pos st = 1%Z -> signal r = (-1)%Z ->
  step2 f st r
  = let sell_value := nmul (sh st) (Np (Fin (close r))) in
    mkState2 0 (entry_p st) (nsub sell_value (nmul sell_value f)) (Py 0).
Proof. intros Hp Hs. unfold step2. rewrite Hp, Hs. reflexivity. Qed.

Lemma step2_hold (f : num) (st : state2) (r : bar) :
  ~ (pos st = 0%Z /\ signal r = 1%Z) ->
  ~ (pos st = 1%Z /\ signal r = (-1)%Z) ->
  step2 f st r = st.
Proof.
  intros Hb Hs. unfold step2.
  destruct (Z.eqb_spec (pos st) 0), (Z.eqb_spec (signal r) 1);
    cbn [andb]; try tauto;
  destruct (Z.eqb_spec (pos st) 1), (Z.eqb_spec (signal r) (-1));
    cbn [andb]; tauto.
Qed.


(** While in position the cash variable is never read: a step does the
    same whatever it holds, and keeps or overwrites it. *)
Lemma step1_long_ignores_capital (f : num) (st : state) (r : bar) (c : num) :
  position st = 1%Z ->
  let st' := step1 f st r in
  let sc' := step1 f (mkState (position st) (entry_price st) c (shares st)) r in
  position sc' = position st' /\ shares sc' = shares st' /\
  (position st' = 0%Z -> capital sc' = capital st').
Proof.
  intro Hp. unfold step1. cbn [position shares capital entry_price].
  rewrite Hp. cbn [Z.eqb andb].
  destruct (signal r =? -1)%Z; cbn; repeat split; auto; lia.
Qed.

End Transitions.

(** C3 as stated fails: on the Buy at index 1 of this series the first loop
    moves from Flat to Long and its cash variable still holds 1000. *)
Lemma entry_keeps_capital_counterexample :
  let rows := [mkBar 10 0; mkBar 10 1] in
  exists st st',
    nth_error (states1 1000 (1 # 1000) rows) 0 = Some st /\
    nth_error (states1 1000 (1 # 1000) rows) 1 = Some st' /\
    buys st (mkBar 10 1) /\
    position st' = 1%Z /\
    capital st' = Py 1000 /\
    neqb (capital st') (Py 0) = false.
Proof.
  cbv zeta. do 2 eexists.
  split; [reflexivity|]. split; [reflexivity|].
  repeat split.
Qed.

(** C3, amended. Between index i and i+1 of a run, in both loops:
    a Buy while Flat computes fee = cash*feeRate and sets
    shares = (cash - fee)/close; the cash variable is not set to 0 (the
    first loop leaves it unchanged, the second leaves cash - fee in it);
    a Sell while Long computes saleValue = shares*close and
    fee = saleValue*feeRate, sets cash = saleValue - fee and shares = 0;
    on a Neutral signal, a Buy while Long or a Sell while Flat the state
    does not change. *)
Theorem transitions_at_index (initial_capital fee_percent : Q)
  (rows : list bar) (i : nat) (r : bar) (st st' : state) (s2 s2' : state2) :
  nth_error rows (S i) = Some r ->
  nth_error (states1 initial_capital fee_percent rows) i = Some st ->
  nth_error (states1 initial_capital fee_percent rows) (S i) = Some st' ->
  nth_error (states2 initial_capital fee_percent rows) i = Some s2 ->
  nth_error (states2 initial_capital fee_percent rows) (S i) = Some s2' ->
  let f := Py fee_percent in
  let c := Np (Fin (close r)) in
  (position st = 0%Z -> signal r = 1%Z ->
     position st' = 1%Z /\
     shares st' = np_div (nsub (capital st) (nmul (capital st) f))
                         (Fin (close r)) /\
     capital st' = capital st) /\
  (pos s2 = 0%Z -> signal r = 1%Z ->
     pos s2' = 1%Z /\
     sh s2' = np_div (nsub (cap_temp s2) (nmul (cap_temp s2) f))
                     (Fin (close r)) /\
     cap_temp s2' = nsub (cap_temp s2) (nmul (cap_temp s2) f)) /\
  (position st = 1%Z -> signal r = (-1)%Z ->
     position st' = 0%Z /\
     capital st' = nsub (nmul (shares st) c) (nmul (nmul (shares st) c) f) /\
     shares st' = Py 0) /\
  (pos s2 = 1%Z -> signal r = (-1)%Z ->
     pos s2' = 0%Z /\
     cap_temp s2' = nsub (nmul (sh s2) c) (nmul (nmul (sh s2) c) f) /\
     sh s2' = Py 0) /\
  (signal r = 0%Z \/ (position st = 1%Z /\ signal r = 1%Z)
     \/ (position st = 0%Z /\ signal r = (-1)%Z) -> st' = st) /\
  (signal r = 0%Z \/ (pos s2 = 1%Z /\ signal r = 1%Z)
     \/ (pos s2 = 0%Z /\ signal r = (-1)%Z) -> s2' = s2).
Proof.
  intros Hr H1 H1' H2 H2' f c.
  rewrite (states1_step _ _ _ _ H1 Hr) in H1'. inversion H1' as [E1].
  rewrite (states2_step _ _ _ _ H2 Hr) in H2'. inversion H2' as [E2].
  clear H1' H2'. fold f.
  split; [|split; [|split; [|split; [|split]]]].
  - intros Hp Hs. rewrite (step1_buy f st r Hp Hs). repeat split.
  - intros Hp Hs. rewrite (step2_buy f s2 r Hp Hs). repeat split.
  - intros Hp Hs. rewrite (step1_sell f st r Hp Hs). repeat split.
  - intros Hp Hs. rewrite (step2_sell f s2 r Hp Hs). repeat split.
  - intro H. apply step1_hold; unfold buys, sells; lia.
  - intro H. apply step2_hold; lia.
Qed.

Lemma transitions_at_index_witness :
  let rows := [mkBar 100 0; mkBar 100 1; mkBar 110 (-1)] in
  let st := mkState 1 (Np (Fin 100)) (Py 1000)
              (np_div (nsub (Py 1000) (nmul (Py 1000) (Py (1 # 100))))
                      (Fin 100)) in
  let s2 := mkState2 1 (Np (Fin 100))
              (nsub (Py 1000) (nmul (Py 1000) (Py (1 # 100))))
              (np_div (nsub (Py 1000) (nmul (Py 1000) (Py (1 # 100))))
                      (Fin 100)) in
  let c := Np (Fin 110) in
  let f := Py (1 # 100) in
  exists st' s2',
    nth_error (states1 1000 (1 # 100) rows) 2 = Some st' /\
    nth_error (states2 1000 (1 # 100) rows) 2 = Some s2' /\
    position st' = 0%Z /\
    capital st' = nsub (nmul (shares st) c) (nmul (nmul (shares st) c) f) /\
    shares st' = Py 0 /\
    pos s2' = 0%Z /\
    cap_temp s2' = nsub (nmul (sh s2) c) (nmul (nmul (sh s2) c) f) /\
    sh s2' = Py 0.
Proof.
  cbv zeta.
  eexists. eexists.
  split; [reflexivity|]. split; [reflexivity|].
  pose proof (@transitions_at_index 1000 (1 # 100)
                [mkBar 100 0; mkBar 100 1; mkBar 110 (-1)] 1
                (mkBar 110 (-1)) _ _ _ _
                eq_refl eq_refl eq_refl eq_refl eq_refl)
    as (_ & _ & H1 & H2 & _).
  destruct (H1 eq_refl eq_refl) as (A1 & A2 & A3).
  destruct (H2 eq_refl eq_refl) as (B1 & B2 & B3).
  repeat split; assumption.
Defined.

(** C5. When the first loop ends in position, the call returns; its ROI is
    (finalCash - initialCapital)/initialCapital*100 where finalCash is what
    the sale of the shares at the last close leaves after the fee; the last
    point of the curve is shares*close[last], without fee; and every point
    of the curve is the mark-to-market value of the state the first loop
    had at that index, before the forced sale. *)
Theorem forced_liquidation_roi_only (initial_capital fee_percent : Q)
  (rows : list bar) :
  let st := final1 initial_capital fee_percent rows in
  position st = 1%Z ->
  exists res q,
    backtest_ema rows initial_capital fee_percent = Returned res /\
    iloc_last (position_col res) = Returned 1%Z /\
    ndiv (nsub (liquidation_cash fee_percent rows st) (Py initial_capital))
         (Py initial_capital) = Returned q /\
    roi res = nmul q (Py 100) /\
    iloc_last (portfolio_value res)
    = Returned (nmul (shares st) (Np (Fin (last_close rows)))) /\
    portfolio_value res
    = zip_with mark (states1 initial_capital fee_percent rows) rows.
Proof.
  intros st Hp.
  assert (Hne : rows <> []).
  { intros ->. cbn in Hp. lia. }
  rewrite backtest_ema_unfold. unfold final_cash. fold st. rewrite Hp.
  cbn [Z.eqb Pos.eqb].
  set (cash := liquidation_cash fee_percent rows st).
  assert (Hq : ndiv (nsub cash (Py initial_capital)) (Py initial_capital)
               = Returned (Np (fdiv (fsub (val cash) (Fin initial_capital))
                                    (Fin initial_capital)))).
  { unfold cash, liquidation_cash.
    destruct (shares st); reflexivity. }
  rewrite Hq. cbn [bind]. do 2 eexists.
  split; [reflexivity|]. cbn [position_col portfolio_value roi].
  assert (Hlast : exists l r, rows = l ++ [r]).
  { destruct (exists_last Hne) as (l & r & E). eauto. }
  destruct Hlast as (l & r & E).
  assert (Hst : exists ss, states1 initial_capital fee_percent rows = ss ++ [st]).
  { pose proof (final1_last initial_capital fee_percent st Hne) as HL.
    fold st in HL.
    assert (Hs : states1 initial_capital fee_percent rows <> []).
    { destruct rows; [congruence|discriminate]. }
    destruct (exists_last Hs) as (ss & x & Ex).
    rewrite Ex in HL. rewrite last_last in HL. subst x. eauto. }
  destruct Hst as (ss & Ess).
  split; [|split; [reflexivity|split; [reflexivity|split]]].
  - rewrite Ess, map_app. cbn [map]. rewrite iloc_last_app. now rewrite Hp.
  - rewrite curve_mark, Ess. unfold zip_with.
    rewrite E at 1.
    assert (Hlen : length ss = length l).
    { assert (Hl : length (states1 initial_capital fee_percent rows)
                   = length rows).
      { destruct rows; [reflexivity|]. unfold states1. cbn [length].
        now rewrite trace_length. }
      rewrite Ess in Hl. rewrite E in Hl.
      rewrite !length_app in Hl. cbn in Hl. lia. }
    rewrite combine_app_same by exact Hlen. cbn [combine].
    rewrite map_app. cbn [map fst snd]. rewrite iloc_last_app.
    unfold mark. rewrite Hp. cbn [Z.eqb Pos.eqb].
    unfold last_close. rewrite E, last_last. reflexivity.
  - apply curve_mark.
Qed.

Lemma forced_liquidation_roi_only_witness :
  let rows := [mkBar 100 0; mkBar 100 1; mkBar 110 1] in
  let st := final1 1000 (1 # 100) rows in
  exists res q,
    backtest_ema rows 1000 (1 # 100) = Returned res /\
    iloc_last (position_col res) = Returned 1%Z /\
    ndiv (nsub (liquidation_cash (1 # 100) rows st) (Py 1000)) (Py 1000)
    = Returned q /\
    roi res = nmul q (Py 100) /\
    iloc_last (portfolio_value res)
    = Returned (nmul (shares st) (Np (Fin (last_close rows)))) /\
    portfolio_value res = zip_with mark (states1 1000 (1 # 100) rows) rows.
Proof.
  apply (@forced_liquidation_roi_only 1000 (1 # 100)
           [mkBar 100 0; mkBar 100 1; mkBar 110 1]).
  reflexivity.
Defined.

(** C10. At every index the second loop is in the same position as the
    first: the positions along the two traces are equal, the position
    column the call returns is the second loop's positions, and the curve
    is the second loop's valuation of its own states. *)
Theorem passes_same_position (initial_capital fee_percent : Q)
  (rows : list bar) :
  map position (states1 initial_capital fee_percent rows)
  = map pos (states2 initial_capital fee_percent rows) /\
  forall res,
    backtest_ema rows initial_capital fee_percent = Returned res ->
    position_col res = map pos (states2 initial_capital fee_percent rows) /\
    portfolio_value res
    = zip_with valuation (states2 initial_capital fee_percent rows) rows.
Proof.
  split; [apply states_positions_agree|].
  intros res H. rewrite backtest_ema_unfold in H.
  destruct (ndiv _ _) as [q|e]; [|discriminate].
  cbn [bind] in H. inversion H. cbn [position_col portfolio_value].
  split; [apply states_positions_agree|apply curve_valuation].
Qed.

Lemma passes_same_position_witness :
  let rows := [mkBar 100 0; mkBar 100 1; mkBar 110 (-1); mkBar 90 1] in
  exists res,
    backtest_ema rows 1000 (1 # 100) = Returned res /\
    position_col res = map pos (states2 1000 (1 # 100) rows) /\
    portfolio_value res = zip_with valuation (states2 1000 (1 # 100) rows) rows.
Proof.
  cbv zeta.
  destruct (@backtest_ema_returns 1000 (1 # 100)
              [mkBar 100 0; mkBar 100 1; mkBar 110 (-1); mkBar 90 1])
    as (res & Hres); [discriminate|].
  exists res. split; [exact Hres|].
  apply (proj2 (@passes_same_position 1000 (1 # 100)
                  [mkBar 100 0; mkBar 100 1; mkBar 110 (-1); mkBar 90 1])).
  exact Hres.
Defined.

(** ** Arithmetic on finite values *)

Section FiniteArith.

Lemma finite_val (a : num) : finite a = true -> val a = Fin (qv a).
Proof. unfold finite, qv. destruct (val a); try discriminate. reflexivity. Qed.

Lemma nmul_finite (a b : num) :
  finite a = true -> finite b = true ->
  finite (nmul a b) = true /\ qv (nmul a b) = qv a * qv b.
Proof.
  intros Ha Hb. apply finite_val in Ha, Hb. unfold finite, qv.
  destruct a, b; cbn in *; try rewrite Ha; try rewrite Hb; cbn; auto.
Qed.

Lemma nsub_finite (a b : num) :
  finite a = true -> finite b = true ->
  finite (nsub a b) = true /\ qv (nsub a b) = qv a - qv b.
Proof.
  intros Ha Hb. apply finite_val in Ha, Hb. unfold finite, qv.
  destruct a, b; cbn in *; try rewrite Ha; try rewrite Hb; cbn; auto.
Qed.

Lemma np_div_finite (a : num) (c : Q) :
  finite a = true -> ~ c == 0 ->
  finite (np_div a (Fin c)) = true /\ qv (np_div a (Fin c)) = qv a / c.
Proof.
  intros Ha Hc. apply finite_val in Ha. unfold finite, qv, np_div.
  cbn [val]. rewrite Ha. cbn [fdiv]. rewrite (Qeq_bool_false_neq Hc).
  cbn. auto.
Qed.

Lemma ndiv_finite (a : num) (y : Q) :
  finite a = true -> ~ y == 0 ->
  exists q, ndiv a (Py y) = Returned q /\
            finite q = true /\ qv q = qv a / y.
Proof.
  intros Ha Hy. destruct a as [x|x].
  - cbn [ndiv]. rewrite (Qeq_bool_false_neq Hy). eexists. repeat split.
  - destruct (@np_div_finite (Np x) y Ha Hy) as (Hf & Hq).
    eexists. split; [reflexivity|]. split; [exact Hf|exact Hq].
Qed.



Lemma nle_of_Qle (a b : num) :
  finite a = true -> finite b = true -> qv a <= qv b -> nle a b = true.
Proof.
  intros Ha Hb H. unfold nle, fle.
  rewrite (finite_val a Ha), (finite_val b Hb). cbn [flt feqb].
  destruct (qv a ?= qv b) eqn:E; cbn [orb].
  - apply Qeq_bool_true_eq. now apply Qeq_alt.
  - reflexivity.
  - apply Qgt_alt in E. lra.
Qed.

Lemma ngt_zero_of_Qlt (a : num) :
  finite a = true -> 0 < qv a -> ngt a (Py 0) = true.
Proof.
  intros Ha H. unfold ngt. rewrite (finite_val a Ha). cbn [val flt].
  destruct (0 ?= qv a) eqn:E;
    [apply Qeq_alt in E|reflexivity|apply Qgt_alt in E]; lra.
Qed.

End FiniteArith.

(** ** What a run keeps true on valid inputs *)

Section Invariants.

Lemma entry_positive (x f c : Q) :
  0 < x -> f < 1 -> 0 < c -> 0 < (x - x * f) / c.
Proof.
  intros Hx Hf Hc. unfold Qdiv.
  apply Qmult_lt_0_compat; [nra|]. now apply Qinv_lt_0_compat.
Qed.

Lemma exit_positive (s f c : Q) :
  0 < s -> f < 1 -> 0 < c -> 0 < s * c - s * c * f.
Proof. intros Hs Hf Hc. assert (0 < s * c) by nra. nra. Qed.

Lemma keep_monotone (x1 x2 f1 f2 : Q) :
  0 <= x2 -> x2 <= x1 -> 0 <= f1 -> f1 <= f2 -> f2 < 1 ->
  0 <= x2 - x2 * f2 /\ x2 - x2 * f2 <= x1 - x1 * f1.
Proof. intros. split; nra. Qed.

Lemma entry_monotone (x1 x2 f1 f2 c : Q) :
  0 <= x2 -> x2 <= x1 -> 0 <= f1 -> f1 <= f2 -> f2 < 1 -> 0 < c ->
  0 <= (x2 - x2 * f2) / c /\ (x2 - x2 * f2) / c <= (x1 - x1 * f1) / c.
Proof.
  intros H0 H1 H2 H3 H4 Hc.
  destruct (@keep_monotone _ _ _ _ H0 H1 H2 H3 H4) as (Ha & Hb).
  assert (Hk : 0 <= / c) by (apply Qlt_le_weak, Qinv_lt_0_compat, Hc).
  unfold Qdiv. split.
  - now apply Qmult_le_0_compat.
  - now apply Qmult_le_compat_r.
Qed.

Lemma exit_monotone (s1 s2 f1 f2 c : Q) :
  0 <= s2 -> s2 <= s1 -> 0 <= f1 -> f1 <= f2 -> f2 < 1 -> 0 <= c ->
  0 <= s2 * c - s2 * c * f2 /\ s2 * c - s2 * c * f2 <= s1 * c - s1 * c * f1.
Proof.
  intros H0 H1 H2 H3 H4 Hc.
  assert (Ha : 0 <= s2 * c) by nra.
  assert (Hb : s2 * c <= s1 * c) by nra.
  apply (@keep_monotone _ _ _ _ Ha Hb H2 H3 H4).
Qed.

Lemma entry_shares_finite (cap : num) (f c : Q) :
  finite cap = true -> ~ c == 0 ->
  let s := np_div (nsub cap (nmul cap (Py f))) (Fin c) in
  finite s = true /\ qv s = (qv cap - qv cap * f) / c.
Proof.
  intros Hc Hz s. subst s.
  destruct (@nmul_finite cap (Py f) Hc eq_refl) as (F1 & Q1).
  destruct (@nsub_finite _ _ Hc F1) as (F2 & Q2).
  destruct (@np_div_finite _ c F2 Hz) as (F3 & Q3).
  split; [exact F3|]. rewrite Q3, Q2, Q1. reflexivity.
Qed.

Lemma exit_cash_finite (s : num) (f c : Q) :
  finite s = true ->
  let sell_value := nmul s (Np (Fin c)) in
  let cash := nsub sell_value (nmul sell_value (Py f)) in
  finite cash = true /\ qv cash = qv s * c - qv s * c * f.
Proof.
  intros Hs sell_value cash. subst cash sell_value.
  destruct (@nmul_finite s (Np (Fin c)) Hs eq_refl) as (F1 & Q1).
  destruct (@nmul_finite _ (Py f) F1 eq_refl) as (F2 & Q2).
  destruct (@nsub_finite _ _ F1 F2) as (F3 & Q3).
  split; [exact F3|]. rewrite Q3, Q2, Q1. reflexivity.
Qed.

Variables (f1 f2 : Q).
Hypothesis f1_nonneg : 0 <= f1.
Hypothesis f1_le_f2 : f1 <= f2.
Hypothesis f2_below_1 : f2 < 1.

Lemma step1_healthy (st : state) (r : bar) :
  0 < close r -> healthy st -> healthy (step1 (Py f2) st r).
Proof.
  intros Hc (Fc & Fs & Hcap & [(H0 & Hsh)|(H1 & Hsh)]); unfold step1.
  - rewrite H0. cbn [Z.eqb andb].
    destruct (signal r =? 1)%Z.
    + assert (Hz : ~ close r == 0) by lra.
      destruct (@entry_shares_finite _ f2 _ Fc Hz) as (F & E).
      unfold healthy. cbn [position capital shares].
      repeat split; auto. right. split; [reflexivity|].
      rewrite E. apply entry_positive; assumption.
    + cbn. unfold healthy. auto 10.
  - rewrite H1. cbn [Z.eqb Pos.eqb andb].
    destruct (signal r =? -1)%Z.
    + destruct (@exit_cash_finite _ f2 (close r) Fs) as (F & E).
      cbv zeta in F, E.
      unfold healthy. cbn [position capital shares].
      repeat split; auto. rewrite E. apply exit_positive; assumption.
    + unfold healthy. auto 10.
Qed.

Lemma step1_dominated (s1 s2 : state) (r : bar) :
  0 <= close r -> (buys s1 r -> 0 < close r) -> dominated s1 s2 ->
  dominated (step1 (Py f1) s1 r) (step1 (Py f2) s2 r).
Proof.
  intros Hc Hbuy
    (Hp & H01 & (Fc1 & Fc2) & (Fs1 & Fs2) & (C0 & C1) & (S0 & S1)).
  unfold step1. rewrite Hp.
  destruct H01 as [H0|H1].
  - rewrite H0. cbn [Z.eqb andb].
    destruct (Z.eqb_spec (signal r) 1) as [Hs|Hs].
    + specialize (Hbuy (conj H0 Hs)).
      assert (Hz : ~ close r == 0) by lra.
      destruct (@entry_shares_finite _ f1 _ Fc1 Hz) as (F & E).
      destruct (@entry_shares_finite _ f2 _ Fc2 Hz) as (F' & E').
      unfold dominated. cbn [position capital shares].
      rewrite E, E'.
      pose proof (@entry_monotone _ _ _ _ _ C0 C1 f1_nonneg f1_le_f2
                    f2_below_1 Hbuy).
      repeat split; auto; tauto.
    + cbn [Z.eqb andb]. unfold dominated. rewrite Hp, H0. auto 12.
  - rewrite H1. cbn [Z.eqb Pos.eqb andb].
    destruct (signal r =? -1)%Z.
    + destruct (@exit_cash_finite _ f1 (close r) Fs1) as (F & E).
      destruct (@exit_cash_finite _ f2 (close r) Fs2) as (F' & E').
      cbv zeta in F, E, F', E'.
      unfold dominated. cbn [position capital shares].
      rewrite E, E'.
      pose proof (@exit_monotone _ _ _ _ _ S0 S1 f1_nonneg f1_le_f2
                    f2_below_1 Hc).
      repeat split; auto; try tauto; cbn; lra.
    + unfold dominated. rewrite Hp, H1. auto 12.
Qed.

(** Along a walk whose purchases all happen at a positive close. *)
Lemma fold_step1_dominated (rows : list bar) :
  (forall r, In r rows -> 0 <= close r) ->
  forall s1 s2,
    (forall i st r,
       nth_error (s1 :: trace (step1 (Py f1)) s1 rows) i = Some st ->
       nth_error rows i = Some r ->
       buys st r -> 0 < close r) ->
    dominated s1 s2 ->
    dominated (fold_left (step1 (Py f1)) rows s1)
              (fold_left (step1 (Py f2)) rows s2).
Proof.
  induction rows as [|r rest IH]; intros Hc s1 s2 Hb H; [exact H|].
  cbn [fold_left]. apply IH.
  - intros x Hx. apply Hc. now right.
  - intros i st x Hs Hx. apply (Hb (S i) st x); assumption.
  - apply step1_dominated; [apply Hc; now left| |exact H].
    apply (Hb 0%nat s1 r); reflexivity.
Qed.


End Invariants.

(** ** Runs that have traded, and the value the ROI is computed from *)

Section Runs.

Variables (initial_capital fee_percent : Q).

Lemma nmul_np_r (a : num) (x : fnum) : is_np (nmul a (Np x)) = true.
Proof. destruct a; reflexivity. Qed.

Lemma nsub_np_l (a b : num) : is_np a = true -> is_np (nsub a b) = true.
Proof. destruct a; [discriminate|]. reflexivity. Qed.

Lemma step1_traded (f : num) (st : state) (r : bar) :
  traded st -> traded (step1 f st r).
Proof.
  intro H. unfold step1, traded in *.
  destruct ((position st =? 0) && (signal r =? 1))%Z; [now left|].
  destruct ((position st =? 1) && (signal r =? -1))%Z; [|exact H].
  right. cbn [capital]. apply nsub_np_l, nmul_np_r.
Qed.

Lemma fold_step1_traded (f : num) (rows : list bar) :
  forall st, traded st -> traded (fold_left (step1 f) rows st).
Proof.
  induction rows as [|r rest IH]; intros st H; [exact H|].
  cbn [fold_left]. apply IH, step1_traded, H.
Qed.


Lemma liquidation_cash_np (rows : list bar) (st : state) :
  is_np (liquidation_cash fee_percent rows st) = true.
Proof. unfold liquidation_cash. apply nsub_np_l, nmul_np_r. Qed.

Lemma final_cash_np (rows : list bar) :
  traded (final1 initial_capital fee_percent rows) ->
  is_np (final_cash initial_capital fee_percent rows) = true.
Proof.
  intro H. unfold final_cash.
  destruct (Z.eqb_spec
              (position (final1 initial_capital fee_percent rows)) 1)
    as [E|E].
  - apply liquidation_cash_np.
  - destruct H as [H|H]; [contradiction|exact H].
Qed.

(** A run that has traded returns, whatever the initial capital. *)
Lemma backtest_ema_returns_traded (rows : list bar) :
  traded (final1 initial_capital fee_percent rows) ->
  exists res,
    backtest_ema rows initial_capital fee_percent = Returned res /\
    portfolio_value res = curve initial_capital fee_percent rows.
Proof.
  intro H. apply final_cash_np in H. rewrite backtest_ema_unfold.
  rewrite ndiv_np by (apply nsub_np_l, H).
  cbn [bind]. eexists. split; reflexivity.
Qed.


Lemma roi_of_cash (cash : num) :
  finite cash = true -> ~ initial_capital == 0 ->
  exists q,
    ndiv (nsub cash (Py initial_capital)) (Py initial_capital) = Returned q /\
    finite (nmul q (Py 100)) = true /\
    qv (nmul q (Py 100)) = (qv cash - initial_capital) / initial_capital * 100.
Proof.
  intros Hf Hz.
  destruct (@nsub_finite cash (Py initial_capital) Hf eq_refl) as (F1 & Q1).
  destruct (@ndiv_finite _ initial_capital F1 Hz) as (q & Hq & F2 & Q2).
  destruct (@nmul_finite q (Py 100) F2 eq_refl) as (F3 & Q3).
  exists q. split; [exact Hq|]. split; [exact F3|].
  rewrite Q3, Q2, Q1. reflexivity.
Qed.

Lemma last_in {A : Type} (l : list A) (d : A) : l <> [] -> In (last l d) l.
Proof.
  intro H. destruct (exists_last H) as (l' & x & ->).
  rewrite last_last. apply in_or_app. right. now left.
Qed.

End Runs.

Section FeeMonotone.

Variables (initial_capital f1 f2 : Q).
Hypothesis capital_positive : 0 < initial_capital.
Hypothesis f1_nonneg : 0 <= f1.
Hypothesis f1_le_f2 : f1 <= f2.
Hypothesis f2_below_1 : f2 < 1.

Lemma dominated_init :
  dominated (init_state initial_capital) (init_state initial_capital).
Proof. unfold dominated. cbn. repeat split; auto; lra. Qed.

Lemma final_cash_dominated (rows : list bar) :
  (forall r, In r rows -> 0 <= close r) ->
  (forall i st r,
     nth_error (states1 initial_capital f1 rows) i = Some st ->
     nth_error rows (S i) = Some r ->
     buys st r -> 0 < close r) ->
  finite (final_cash initial_capital f1 rows) = true /\
  finite (final_cash initial_capital f2 rows) = true /\
  0 <= qv (final_cash initial_capital f2 rows) /\
  qv (final_cash initial_capital f2 rows)
  <= qv (final_cash initial_capital f1 rows).
Proof.
  intros Hc Hb.
  assert (Htl : forall r, In r (tl rows) -> 0 <= close r).
  { intros r Hr. apply Hc. destruct rows; [destruct Hr|now right]. }
  assert (Hbt : forall i st r,
             nth_error (init_state initial_capital
                          :: trace (step1 (Py f1))
                               (init_state initial_capital) (tl rows)) i
             = Some st ->
             nth_error (tl rows) i = Some r ->
             buys st r -> 0 < close r).
  { destruct rows as [|r0 rest].
    - intros i st r _ Hr. destruct i; discriminate Hr.
    - intros i st r Hs Hr. apply (Hb i st r); assumption. }
  pose proof (@fold_step1_dominated f1 f2 f1_nonneg f1_le_f2 f2_below_1
                (tl rows) Htl _ _ Hbt dominated_init) as D.
  fold (final1 initial_capital f1 rows) in D.
  fold (final1 initial_capital f2 rows) in D.
  destruct D as (Hp & H01 & (Fc1 & Fc2) & (Fs1 & Fs2) & (C0 & C1) & (S0 & S1)).
  unfold final_cash. rewrite Hp.
  destruct H01 as [H0|H1].
  - rewrite H0. cbn [Z.eqb]. auto.
  - rewrite H1. cbn [Z.eqb Pos.eqb].
    assert (Hne : rows <> []).
    { intros ->. cbn in H1. lia. }
    assert (Hl : 0 <= last_close rows).
    { unfold last_close. apply Hc, last_in, Hne. }
    unfold liquidation_cash.
    destruct (@exit_cash_finite _ f1 (last_close rows) Fs1) as (F & E).
    destruct (@exit_cash_finite _ f2 (last_close rows) Fs2) as (F' & E').
    cbv zeta in F, E, F', E'.
    rewrite E, E'.
    pose proof (@exit_monotone _ _ _ _ _ S0 S1 f1_nonneg f1_le_f2
                  f2_below_1 Hl).
    tauto.
Qed.

End FeeMonotone.

(** C8 as stated fails: when a Buy fires at a close of 0 the ROI is NaN at
    every fee rate, and NaN is not below or equal to NaN. *)
Lemma fee_monotone_zero_price_counterexample :
  exists r1 r2,
    backtest_ema [mkBar 1 0; mkBar 0 1] 1000 0 = Returned r1 /\
    backtest_ema [mkBar 1 0; mkBar 0 1] 1000 (1 # 2) = Returned r2 /\
    roi r1 = Np NaN /\ roi r2 = Np NaN /\
    nle (roi r2) (roi r1) = false.
Proof. do 2 eexists. repeat split. Qed.

(** C8, amended. For a series of signals and non-negative closes in which
    every bar where a Buy transition fires has a positive close, a positive
    initial capital and two fee rates 0 <= f1 <= f2 < 1, both runs return a
    finite ROI and the ROI at the higher fee rate is not above the ROI at
    the lower one. *)
Theorem roi_fee_monotone (rows : list bar) (initial_capital f1 f2 : Q) :
  0 < initial_capital ->
  0 <= f1 -> f1 <= f2 -> f2 < 1 ->
  (forall r, In r rows -> 0 <= close r) ->
  (forall i st r,
     nth_error (states1 initial_capital f1 rows) i = Some st ->
     nth_error rows (S i) = Some r ->
     buys st r -> 0 < close r) ->
  exists r1 r2,
    backtest_ema rows initial_capital f1 = Returned r1 /\
    backtest_ema rows initial_capital f2 = Returned r2 /\
    finite (roi r1) = true /\ finite (roi r2) = true /\
    qv (roi r2) <= qv (roi r1) /\
    nle (roi r2) (roi r1) = true.
Proof.
  intros Hcap H0 H12 H2 Hc Hb.
  destruct (@final_cash_dominated initial_capital f1 f2 Hcap H0 H12 H2 rows
              Hc Hb) as (F1 & F2 & _ & Hle).
  assert (Hz : ~ initial_capital == 0) by lra.
  destruct (@roi_of_cash initial_capital _ F1 Hz) as (q1 & E1 & G1 & V1).
  destruct (@roi_of_cash initial_capital _ F2 Hz) as (q2 & E2 & G2 & V2).
  rewrite !backtest_ema_unfold, E1, E2. cbn [bind].
  do 2 eexists. split; [reflexivity|]. split; [reflexivity|].
  cbn [roi]. split; [exact G1|]. split; [exact G2|].
  assert (Hq : qv (nmul q2 (Py 100)) <= qv (nmul q1 (Py 100))).
  { rewrite V1, V2. unfold Qdiv.
    assert (Hk : 0 < / initial_capital) by now apply Qinv_lt_0_compat.
    set (k := / initial_capital) in *.
    set (a1 := qv (final_cash initial_capital f1 rows)) in *.
    set (a2 := qv (final_cash initial_capital f2 rows)) in *.
    nra. }
  split; [exact Hq|]. apply nle_of_Qle; assumption.
Qed.

Lemma roi_fee_monotone_witness :
  let rows := [mkBar 100 0; mkBar 100 1; mkBar 0 1; mkBar 110 (-1)] in
  exists r1 r2,
    backtest_ema rows 1000 (1 # 1000) = Returned r1 /\
    backtest_ema rows 1000 (1 # 100) = Returned r2 /\
    finite (roi r1) = true /\ finite (roi r2) = true /\
    qv (roi r2) <= qv (roi r1) /\
    nle (roi r2) (roi r1) = true.
Proof.
  apply (@roi_fee_monotone
           [mkBar 100 0; mkBar 100 1; mkBar 0 1; mkBar 110 (-1)]
           1000 (1 # 1000) (1 # 100)).
  - reflexivity.
  - discriminate.
  - discriminate.
  - reflexivity.
  - intros r [<-|[<-|[<-|[<-|[]]]]]; discriminate.
  - intros i st r Hs Hr (Hp & Hsig).
    destruct i as [|[|[|i]]]; cbn in Hs, Hr;
      inversion Hs; inversion Hr; subst; cbn in Hp, Hsig;
      try discriminate; try reflexivity.
    destruct i; discriminate.
Defined.




(** C7 as stated fails: with a fee rate of 1.2 the simulator rejects
    nothing, it runs the trades and returns an ROI of -95.6. *)
Lemma fee_rate_not_checked_counterexample :
  exists res,
    backtest_ema [mkBar 100 0; mkBar 100 1; mkBar 110 (-1)] 1000 (12 # 10)
    = Returned res /\
    position_col res = [0%Z; 1%Z; 0%Z] /\
    finite (roi res) = true /\
    qv (roi res) == - (956 # 10).
Proof. eexists. split; [reflexivity|]. repeat split. Qed.

(** C7, amended. A window below 1 makes the signal engine raise the
    ValueError of pandas: for the short window with the frame untouched,
    for the long window once the short EMA column has been stored.  The
    simulator does not check the fee rate: with any fee rate and a non-zero
    initial capital it returns a result. *)
Theorem windows_checked_fee_not (df : frame) (short_window long_window : Z)
  (rows : list bar) (initial_capital fee_percent : Q) :
  ((short_window < 1)%Z ->
     calculate_ema_strategy df short_window long_window
     = (df, Raised ValueError)) /\
  ((1 <= short_window)%Z -> (long_window < 1)%Z ->
     exists es,
       calculate_ema_strategy df short_window long_window
       = (set_ema_short df es, Raised ValueError)) /\
  (~ initial_capital == 0 ->
     exists res,
       backtest_ema rows initial_capital fee_percent = Returned res).
Proof.
  split; [|split].
  - intro H. unfold calculate_ema_strategy.
    now rewrite (ewm_mean_invalid (close_col df) H).
  - intros Hs Hl. unfold calculate_ema_strategy.
    rewrite (ewm_mean_valid (close_col df) Hs).
    cbn [set_ema_short close_col].
    rewrite (ewm_mean_invalid (close_col df) Hl). eauto.
  - apply backtest_ema_returns.
Qed.

Lemma windows_checked_fee_not_witness :
  calculate_ema_strategy (load [10; 20; 10]) 0 2
  = (load [10; 20; 10], Raised ValueError) /\
  (exists es,
     calculate_ema_strategy (load [10; 20; 10]) 1 0
     = (set_ema_short (load [10; 20; 10]) es, Raised ValueError)) /\
  (exists res,
     backtest_ema [mkBar 100 0; mkBar 100 1] 1000 (12 # 10) = Returned res).
Proof.
  destruct (@windows_checked_fee_not (load [10; 20; 10]) 0 2
              [mkBar 100 0; mkBar 100 1] 1000 (12 # 10)) as (H1 & _ & H3).
  destruct (@windows_checked_fee_not (load [10; 20; 10]) 1 0
              [mkBar 100 0; mkBar 100 1] 1000 (12 # 10)) as (_ & H2 & _).
  split; [apply H1; lia|]. split; [apply H2; lia|].
  apply H3. discriminate.
Defined.

Section Machine.

Variables (initial_capital fee_percent : Q).




End Machine.

(** ** The variant of [app.py] *)

Section AppVariant.

(** The engine never signals at index 0: both EMAs start at the first
    close. *)
Lemma engine_first_signal_neutral (df : frame) (sw lw : Z) :
  (1 <= sw)%Z -> (1 <= lw)%Z -> close_col df <> [] ->
  exists sg,
    signal_col (fst (calculate_ema_strategy df sw lw)) = Some sg /\
    nth_error sg 0 = Some 0%Z.
Proof.
  intros Hs Hl Hne.
  rewrite (calculate_ema_strategy_valid df Hs Hl). cbn [fst signal_col].
  eexists. split; [reflexivity|].
  destruct (close_col df) as [|c0 rest]; [congruence|].
  cbn. unfold Qltb, Qgtb.
  assert (E : (c0 ?= c0) = Eq) by (apply Qeq_alt; reflexivity).
  now rewrite E.
Qed.

(** [app.py] does set the cash to 0 when it buys, and charges no fee. *)
Lemma app_step_buy (st : App.state) (r : bar) :
  signal r = 1%Z -> neqb (App.position st) (Py 0) = true ->
  App.step st r
  = App.mkState (np_div (App.balance st) (Fin (close r))) (Py 0).
Proof. intros Hs Hp. unfold App.step. now rewrite Hs, Hp. Qed.

(** [app.py] walks from index 0: a Buy signal on the first bar, which the
    engine never produces, would be traded. *)
Lemma app_trades_at_index0_example :
  App.step (App.init_state 1000) (mkBar 100 1)
  = App.mkState (Np (Fin (1000 / 100))) (Py 0).
Proof. reflexivity. Qed.

(** [app.py] computes its ROI from the last point of the curve, marked to
    market: there is no forced sale and no fee. *)
Lemma app_roi_example :
  exists curve_points roi_value,
    App.backtest_ema [mkBar 100 0; mkBar 100 1; mkBar 110 1] 1000
    = Returned (curve_points, roi_value) /\
    qv roi_value == 10.
Proof. do 2 eexists. split; reflexivity. Qed.

End AppVariant.

(** ** The scenarios of the specification, run through engine and simulator *)

Section Scenarios.

(** Scenario B: closes 10, 20, 10 with windows 1 and 2 and no fee: a Buy at
    index 1, a Sell at index 2; 50 shares bought at 20 and sold at 10. *)
Example scenario_b_signals :
  signal_col (fst (calculate_ema_strategy (load [10; 20; 10]) 1 2))
  = Some [0%Z; 1%Z; (-1)%Z].
Proof. reflexivity. Qed.

Example scenario_b_backtest :
  exists res,
    backtest_ema
      (rows_of (fst (calculate_ema_strategy (load [10; 20; 10]) 1 2))) 1000 0
    = Returned res /\
    position_col res = [0%Z; 1%Z; 0%Z] /\
    qv (nth 0 (portfolio_value res) (Py 0)) == 1000 /\
    qv (nth 1 (portfolio_value res) (Py 0)) == 1000 /\
    qv (nth 2 (portfolio_value res) (Py 0)) == 500 /\
    qv (roi res) == - (50).
Proof. eexists. split; [reflexivity|]. repeat split. Qed.

(** Scenario C: fee 1%, capital 1000, a Buy at 100 and a Sell at 110:
    9.9 shares, final cash 1078.11, ROI 7.811%. *)
Example scenario_c_backtest :
  exists res,
    backtest_ema [mkBar 100 0; mkBar 100 1; mkBar 110 (-1)] 1000 (1 # 100)
    = Returned res /\
    qv (shares (final1 1000 (1 # 100) [mkBar 100 0; mkBar 100 1])) == 99 # 10 /\
    qv (nth 2 (portfolio_value res) (Py 0)) == 107811 # 100 /\
    qv (roi res) == 7811 # 1000.
Proof. eexists. split; [reflexivity|]. repeat split. Qed.

(** Scenario A: flat prices give Neutral signals, a constant curve and a
    zero ROI. *)
Example scenario_a_backtest :
  signal_col (fst (calculate_ema_strategy (load [100; 100; 100]) 9 21))
  = Some [0%Z; 0%Z; 0%Z] /\
  backtest_ema
    (rows_of (fst (calculate_ema_strategy (load [100; 100; 100]) 9 21)))
    1000 (1 # 1000)
  = Returned (mkResult [0%Z; 0%Z; 0%Z] [Py 1000; Py 1000; Py 1000]
                       (Py ((1000 - 1000) / 1000 * 100))).
Proof. split; reflexivity. Qed.

End Scenarios.

(** * Further properties of the code *)

(** ** The signal engine beyond the recursion *)

Section EngineMore.

Import Pandas.

Lemma ewm_loop_prefix (a w : Q) (xs ys : list Q) :
  firstn (length xs) (ewm_loop a w (xs ++ ys)) = ewm_loop a w xs.
Proof.
  revert w. induction xs as [|x xs IH]; intro w; [reflexivity|].
  cbn. now rewrite IH.
Qed.

Lemma ewm_prefix (com : Q) (xs ys : list Q) :
  firstn (length xs) (ewm com (xs ++ ys)) = ewm com xs.
Proof.
  destruct xs as [|x xs]; [reflexivity|].
  cbn. now rewrite ewm_loop_prefix.
Qed.

Lemma firstn_cmp_cols (f : Q -> Q -> bool) (n : nat) (a b : list Q) :
  firstn n (cmp_cols f a b) = cmp_cols f (firstn n a) (firstn n b).
Proof.
  revert a b. induction n as [|n IH]; intros [|x a] [|y b];
    cbn; try reflexivity.
  now rewrite IH.
Qed.

Lemma firstn_loc_assign (n : nat) (mask : list bool) (v : Z) (col : list Z) :
  firstn n (loc_assign mask v col)
  = loc_assign (firstn n mask) v (firstn n col).
Proof.
  revert mask col. induction n as [|n IH]; intros [|m mask] [|x col];
    cbn; try reflexivity.
  now rewrite IH.
Qed.

Lemma firstn_repeat_app (x : Z) (n m : nat) :
  firstn n (repeat x (n + m)) = repeat x n.
Proof. induction n as [|n IH]; cbn; [reflexivity|]. now rewrite IH. Qed.

(** X1. No lookahead: the EMA and signal columns computed on a series are
    the first entries of the columns computed on any extension of it. *)
Theorem engine_prefix_stable (dfa dfb : frame) (ys : list Q)
  (short_window long_window : Z) :
  (1 <= short_window)%Z -> (1 <= long_window)%Z ->
  close_col dfb = close_col dfa ++ ys ->
  let n := length (close_col dfa) in
  let ra := fst (calculate_ema_strategy dfa short_window long_window) in
  let rb := fst (calculate_ema_strategy dfb short_window long_window) in
  ema_short ra = option_map (firstn n) (ema_short rb) /\
  ema_long ra = option_map (firstn n) (ema_long rb) /\
  signal_col ra = option_map (firstn n) (signal_col rb).
Proof.
  intros Hs Hl E n ra rb. subst ra rb n.
  rewrite (calculate_ema_strategy_valid dfa Hs Hl).
  rewrite (calculate_ema_strategy_valid dfb Hs Hl).
  cbn [fst ema_short ema_long signal_col option_map]. rewrite E.
  rewrite !firstn_loc_assign, !firstn_cmp_cols, !ewm_prefix.
  rewrite length_app, firstn_repeat_app. auto.
Qed.

Lemma engine_prefix_stable_witness :
  let ra := fst (calculate_ema_strategy (load [10; 20]) 1 2) in
  let rb := fst (calculate_ema_strategy (load [10; 20; 10; 40]) 1 2) in
  ema_short ra = option_map (firstn 2) (ema_short rb) /\
  ema_long ra = option_map (firstn 2) (ema_long rb) /\
  signal_col ra = option_map (firstn 2) (signal_col rb).
Proof.
  apply (@engine_prefix_stable (load [10; 20]) (load [10; 20; 10; 40])
           [10; 40] 1 2); [lia|lia|reflexivity].
Defined.

End EngineMore.

Section EngineDegenerate.

Import Pandas.

Lemma Qcompare_refl_eq (x : Q) : (x ?= x) = Eq.
Proof. apply Qeq_alt. reflexivity. Qed.

(** Two equal EMA columns give a column of Neutral signals. *)
Lemma signals_of_equal_columns (l : list Q) :
  loc_assign (cmp_cols Qltb l l) (-1)%Z
    (loc_assign (cmp_cols Qgtb l l) 1%Z (repeat 0%Z (length l)))
  = repeat 0%Z (length l).
Proof.
  induction l as [|x l IH]; [reflexivity|].
  cbn [length repeat cmp_cols loc_assign]. unfold Qltb at 1, Qgtb at 1.
  rewrite Qcompare_refl_eq. now rewrite IH.
Qed.

(** X3. With the same window for both EMAs the engine returns a column of
    Neutral signals only, one per bar. *)
Theorem equal_windows_all_neutral (df : frame) (window : Z) :
  (1 <= window)%Z ->
  calculate_ema_strategy df window window
  = (mkFrame (close_col df)
       (Some (ewm ((inject_Z window - 1) / 2) (close_col df)))
       (Some (ewm ((inject_Z window - 1) / 2) (close_col df)))
       (Some (repeat 0%Z (length (close_col df)))),
     Returned tt).
Proof.
  intro H. rewrite (calculate_ema_strategy_valid df H H).
  pose proof (signals_of_equal_columns
                (ewm ((inject_Z window - 1) / 2) (close_col df))) as E.
  rewrite ewm_length in E. now rewrite E.
Qed.

Lemma equal_windows_all_neutral_witness :
  signal_col (fst (calculate_ema_strategy (load [10; 20; 10]) 9 9))
  = Some [0%Z; 0%Z; 0%Z].
Proof.
  rewrite (@equal_windows_all_neutral (load [10; 20; 10]) 9); [|lia].
  reflexivity.
Defined.

Lemma ewm_loop_constant (a c : Q) (n : nat) :
  ewm_loop a c (repeat c n) = repeat c n.
Proof.
  induction n as [|n IH]; [reflexivity|].
  cbn [repeat ewm_loop]. unfold ewm_step.
  rewrite (Qeq_bool_true_eq (Qeq_refl c)). now rewrite IH.
Qed.

Lemma ewm_constant (com c : Q) (n : nat) :
  ewm com (repeat c n) = repeat c n.
Proof.
  destruct n as [|n]; [reflexivity|].
  cbn [repeat ewm]. now rewrite ewm_loop_constant.
Qed.

(** X4. On a series that stays at one price both EMAs stay at that price
    and every signal is Neutral, whatever the two windows. *)
Theorem constant_price_all_neutral (df : frame) (short_window long_window : Z)
  (c : Q) (n : nat) :
  (1 <= short_window)%Z -> (1 <= long_window)%Z ->
  close_col df = repeat c n ->
  calculate_ema_strategy df short_window long_window
  = (mkFrame (repeat c n) (Some (repeat c n)) (Some (repeat c n))
       (Some (repeat 0%Z n)),
     Returned tt).
Proof.
  intros Hs Hl E. rewrite (calculate_ema_strategy_valid df Hs Hl).
  rewrite E, !ewm_constant, repeat_length.
  pose proof (signals_of_equal_columns (repeat c n)) as H.
  rewrite repeat_length in H. now rewrite H.
Qed.

Lemma constant_price_all_neutral_witness :
  calculate_ema_strategy (load [100; 100; 100]) 9 21
  = (mkFrame [100; 100; 100] (Some [100; 100; 100]) (Some [100; 100; 100])
       (Some [0%Z; 0%Z; 0%Z]),
     Returned tt).
Proof.
  apply (@constant_price_all_neutral (load [100; 100; 100]) 9 21 100 3);
    [lia|lia|reflexivity].
Defined.

(** X5. The engine reads the close column only and leaves it as it is, so
    running it again on the frame it has left changes nothing: same frame,
    same outcome, for valid and for refused windows alike. *)
Theorem engine_idempotent (df : frame) (short_window long_window : Z) :
  calculate_ema_strategy
    (fst (calculate_ema_strategy df short_window long_window))
    short_window long_window
  = calculate_ema_strategy df short_window long_window.
Proof.
  unfold calculate_ema_strategy.
  destruct (ewm_mean short_window (close_col df)) as [es|e] eqn:Es.
  - cbn [set_ema_short close_col].
    destruct (ewm_mean long_window (close_col df)) as [el|e] eqn:El.
    + cbn [fst set_signal set_ema_long set_ema_short close_col signal_col
           ema_short ema_long].
      rewrite Es. cbn [close_col]. rewrite El. reflexivity.
    + cbn [fst set_ema_short close_col]. rewrite Es.
      cbn [set_ema_short close_col]. rewrite El. reflexivity.
  - cbn [fst]. rewrite Es. reflexivity.
Qed.





End EngineDegenerate.

(** ** Runs of the simulator of [backtest.py] *)

Section RunLemmas.

(** What the initial state has and every step keeps holds all along. *)
Lemma trace_invariant {S : Type} (P : S -> Prop) (step : S -> bar -> S)
  (rows : list bar) :
  (forall s r, In r rows -> P s -> P (step s r)) ->
  forall s, P s ->
    Forall P (trace step s rows) /\ P (fold_left step rows s).
Proof.
  induction rows as [|r rest IH]; intros Hstep s Hs.
  - split; [constructor|exact Hs].
  - assert (Hs' : P (step s r)) by (apply Hstep; [now left|exact Hs]).
    destruct (IH (fun x y Hy => Hstep x y (or_intror Hy)) _ Hs') as (A & B).
    split; [constructor; assumption|exact B].
Qed.

(** The same for a relation between two walks over the same bars. *)
Lemma traces_related {S T : Type} (R : S -> T -> Prop)
  (f : S -> bar -> S) (g : T -> bar -> T) (rows : list bar) :
  (forall s t r, In r rows -> R s t -> R (f s r) (g t r)) ->
  forall s t, R s t ->
    Forall2 R (trace f s rows) (trace g t rows) /\
    R (fold_left f rows s) (fold_left g rows t).
Proof.
  induction rows as [|r rest IH]; intros Hstep s t Hst.
  - split; [constructor|exact Hst].
  - assert (H' : R (f s r) (g t r)) by (apply Hstep; [now left|exact Hst]).
    destruct (IH (fun x y z Hz => Hstep x y z (or_intror Hz)) _ _ H')
      as (A & B).
    split; [constructor; assumption|exact B].
Qed.

Lemma states1_invariant (P : state -> Prop) (initial_capital fee_percent : Q)
  (rows : list bar) :
  P (init_state initial_capital) ->
  (forall s r, In r (tl rows) -> P s -> P (step1 (Py fee_percent) s r)) ->
  Forall P (states1 initial_capital fee_percent rows) /\
  P (final1 initial_capital fee_percent rows).
Proof.
  intros H0 Hstep. unfold final1.
  destruct (@trace_invariant state P (step1 (Py fee_percent)) (tl rows)
              Hstep _ H0) as (A & B).
  split; [|exact B].
  destruct rows as [|r0 rest]; [constructor|].
  unfold states1. constructor; assumption.
Qed.

Lemma states1_length (initial_capital fee_percent : Q) (rows : list bar) :
  length (states1 initial_capital fee_percent rows) = length rows.
Proof.
  destruct rows as [|r0 rest]; [reflexivity|].
  unfold states1. cbn [length]. now rewrite trace_length.
Qed.

Lemma zip_with_length {A B C : Type} (f : A -> B -> C)
  (a : list A) (b : list B) :
  length a = length b -> length (zip_with f a b) = length b.
Proof.
  intro H. unfold zip_with. rewrite length_map, length_combine. lia.
Qed.

Lemma curve_length (initial_capital fee_percent : Q) (rows : list bar) :
  length (curve initial_capital fee_percent rows) = length rows.
Proof.
  rewrite curve_mark. apply zip_with_length, states1_length.
Qed.

Lemma Forall_zip_with {A B C : Type} (P : A -> Prop) (Q : B -> Prop)
  (R : C -> Prop) (f : A -> B -> C) (a : list A) (b : list B) :
  (forall x y, P x -> Q y -> R (f x y)) ->
  Forall P a -> Forall Q b -> Forall R (zip_with f a b).
Proof.
  intros Hf Ha. revert b. unfold zip_with.
  induction Ha as [|x a Hx _ IH]; intros b Hb; [constructor|].
  destruct Hb as [|y b Hy Hb]; [constructor|].
  cbn. constructor; [now apply Hf|now apply IH].
Qed.

(** The result of a call that returns. *)
Lemma backtest_ema_returned (initial_capital fee_percent : Q)
  (rows : list bar) (res : result) :
  backtest_ema rows initial_capital fee_percent = Returned res ->
  exists q,
    ndiv (nsub (final_cash initial_capital fee_percent rows)
               (Py initial_capital)) (Py initial_capital) = Returned q /\
    res = mkResult (map position (states1 initial_capital fee_percent rows))
                   (curve initial_capital fee_percent rows)
                   (nmul q (Py 100)).
Proof.
  intro H. rewrite backtest_ema_unfold in H.
  destruct (ndiv _ _) as [q|e]; [|discriminate].
  cbn [bind] in H. inversion H. eauto.
Qed.

(** The last point of the curve values the state the first loop ends in. *)
Lemma curve_last (initial_capital fee_percent : Q) (rows : list bar) :
  rows <> [] ->
  iloc_last (curve initial_capital fee_percent rows)
  = Returned (mark (final1 initial_capital fee_percent rows)
                   (last rows (mkBar 0 0%Z))).
Proof.
  intro Hne.
  destruct (exists_last Hne) as (l & r & E).
  assert (Hs : states1 initial_capital fee_percent rows <> []).
  { destruct rows; [congruence|discriminate]. }
  destruct (exists_last Hs) as (ss & x & Ex).
  pose proof (final1_last initial_capital fee_percent x Hne) as HL.
  rewrite Ex, last_last in HL.
  pose proof (states1_length initial_capital fee_percent rows) as Hlen.
  rewrite Ex in Hlen. rewrite E in Hlen.
  rewrite !length_app in Hlen. cbn [length] in Hlen.
  rewrite curve_mark, Ex. unfold zip_with. rewrite E at 1.
  rewrite combine_app_same by lia. cbn [combine].
  rewrite map_app. cbn [map fst snd]. rewrite iloc_last_app.
  rewrite E at 2. rewrite last_last. now rewrite HL.
Qed.

End RunLemmas.

(** X7. The position column and the portfolio curve the simulator returns
    have exactly one entry per bar of the input. *)
Theorem outputs_aligned (rows : list bar) (initial_capital fee_percent : Q)
  (res : result) :
  backtest_ema rows initial_capital fee_percent = Returned res ->
  length (position_col res) = length rows /\
  length (portfolio_value res) = length rows.
Proof.
  intro H. destruct (backtest_ema_returned _ _ _ H) as (q & _ & ->).
  cbn [position_col portfolio_value].
  now rewrite length_map, states1_length, curve_length.
Qed.

Lemma outputs_aligned_witness :
  exists res,
    backtest_ema [mkBar 100 0; mkBar 100 1; mkBar 110 (-1)] 1000 (1 # 100)
    = Returned res /\
    length (position_col res) = 3%nat /\
    length (portfolio_value res) = 3%nat.
Proof.
  eexists. split; [reflexivity|].
  apply (@outputs_aligned [mkBar 100 0; mkBar 100 1; mkBar 110 (-1)]
           1000 (1 # 100)).
  reflexivity.
Defined.

Section Untraded.

Variables (initial_capital fee_percent : Q).

Lemma has_buy_false (rows : list bar) :
  has_buy rows = false ->
  forall r, In r (tl rows) -> signal r <> 1%Z.
Proof.
  unfold has_buy. intros H r Hr E.
  assert (Ht : existsb (fun r => (signal r =? 1)%Z) (tl rows) = true).
  { apply existsb_exists. exists r. split; [exact Hr|now apply Z.eqb_eq]. }
  congruence.
Qed.

Lemma step1_flat_no_buy (f : num) (st : state) (r : bar) :
  position st = 0%Z -> signal r <> 1%Z -> step1 f st r = st.
Proof.
  intros Hp Hs. apply step1_hold; unfold buys, sells; lia.
Qed.

Lemma Forall_eq_repeat {A : Type} (x : A) (l : list A) :
  Forall (eq x) l -> l = repeat x (length l).
Proof.
  induction 1 as [|y l <- _ IH]; [reflexivity|].
  cbn. now rewrite <- IH.
Qed.

(** Without a Buy signal after the first bar the walk stays where it
    starts. *)
Lemma untraded_states (rows : list bar) :
  has_buy rows = false ->
  states1 initial_capital fee_percent rows
  = repeat (init_state initial_capital) (length rows) /\
  final1 initial_capital fee_percent rows = init_state initial_capital.
Proof.
  intro H. pose proof (has_buy_false rows H) as Hs.
  destruct (@states1_invariant (eq (init_state initial_capital))
              initial_capital fee_percent rows eq_refl) as (A & B).
  { intros s r Hr <-. symmetry.
    apply step1_flat_no_buy; [reflexivity|now apply Hs]. }
  split; [|now symmetry].
  rewrite <- (states1_length initial_capital fee_percent rows).
  now apply Forall_eq_repeat.
Qed.

Lemma fold_step1_buy_traded (f : num) (rows : list bar) (r : bar) :
  In r rows -> signal r = 1%Z ->
  forall st, position st = 0%Z \/ traded st ->
    traded (fold_left (step1 f) rows st).
Proof.
  intros Hr Hs. induction rows as [|r0 rest IH]; [destruct Hr|].
  intros st Hst. cbn [fold_left].
  destruct Hr as [->|Hr].
  - apply fold_step1_traded. destruct Hst as [Hp|Ht].
    + left. now rewrite (step1_buy f st r Hp Hs).
    + apply step1_traded, Ht.
  - apply (IH Hr). destruct Hst as [Hp|Ht].
    + unfold step1. rewrite Hp. cbn [Z.eqb andb].
      destruct (signal r0 =? 1)%Z; [right; now left|now left].
    + right. apply step1_traded, Ht.
Qed.

Lemma has_buy_traded (rows : list bar) :
  has_buy rows = true -> traded (final1 initial_capital fee_percent rows).
Proof.
  unfold has_buy. intro H. apply existsb_exists in H.
  destruct H as (r & Hr & Hs). apply Z.eqb_eq in Hs.
  unfold final1. apply (fold_step1_buy_traded _ _ _ Hr Hs). now left.
Qed.

Lemma untraded_zero_capital_raises (rows : list bar) :
  has_buy rows = false -> initial_capital == 0 ->
  backtest_ema rows initial_capital fee_percent = Raised ZeroDivisionError.
Proof.
  intros H Hz. rewrite backtest_ema_unfold. unfold final_cash.
  destruct (untraded_states rows H) as (_ & ->).
  cbn. now rewrite (Qeq_bool_true_eq Hz).
Qed.

End Untraded.

(** X8. The only exception the simulator raises is ZeroDivisionError, and
    it raises it exactly when the initial capital is 0 and no bar after the
    first carries a Buy signal. *)
Theorem raises_iff_untraded_zero_capital (rows : list bar)
  (initial_capital fee_percent : Q) (e : exn) :
  backtest_ema rows initial_capital fee_percent = Raised e <->
  e = ZeroDivisionError /\ initial_capital == 0 /\ has_buy rows = false.
Proof.
  split.
  - intro H. destruct (has_buy rows) eqn:Hb.
    + destruct (@backtest_ema_returns_traded initial_capital fee_percent rows
                  (has_buy_traded initial_capital fee_percent rows Hb))
        as (res & Hres & _).
      congruence.
    + destruct (Qeq_dec initial_capital 0) as [Hz|Hz].
      * rewrite (untraded_zero_capital_raises fee_percent rows Hb Hz) in H.
        inversion H. auto.
      * destruct (@backtest_ema_returns initial_capital fee_percent rows Hz)
          as (res & Hres).
        congruence.
  - intros (-> & Hz & Hb). now apply untraded_zero_capital_raises.
Qed.

(** X9. Without a Buy signal after the first bar the simulator never
    enters a position: every position is 0, every point of the curve is the
    initial capital and the ROI is 0. *)
Theorem no_buy_signal_no_trade (rows : list bar)
  (initial_capital fee_percent : Q) :
  has_buy rows = false -> ~ initial_capital == 0 ->
  exists res,
    backtest_ema rows initial_capital fee_percent = Returned res /\
    position_col res = repeat 0%Z (length rows) /\
    portfolio_value res = repeat (Py initial_capital) (length rows) /\
    finite (roi res) = true /\ qv (roi res) == 0.
Proof.
  intros Hb Hz. rewrite backtest_ema_unfold. unfold final_cash.
  destruct (untraded_states initial_capital fee_percent rows Hb) as (Es & Ef).
  rewrite Ef. cbn [position init_state Z.eqb capital nsub ndiv].
  rewrite (Qeq_bool_false_neq Hz). cbn [bind].
  eexists. split; [reflexivity|].
  cbn [position_col portfolio_value roi].
  rewrite curve_mark, Es.
  split; [|split; [|split]].
  - rewrite map_repeat. reflexivity.
  - unfold zip_with. clear. induction rows as [|r rest IH]; [reflexivity|].
    cbn. now rewrite IH.
  - reflexivity.
  - cbn. field. exact Hz.
Qed.

Lemma no_buy_signal_no_trade_witness :
  exists res,
    backtest_ema [mkBar 100 1; mkBar 90 (-1); mkBar 80 0] 1000 (1 # 1000)
    = Returned res /\
    position_col res = repeat 0%Z 3 /\
    portfolio_value res = repeat (Py 1000) 3 /\
    finite (roi res) = true /\ qv (roi res) == 0.
Proof.
  apply (@no_buy_signal_no_trade [mkBar 100 1; mkBar 90 (-1); mkBar 80 0]
           1000 (1 # 1000)).
  - reflexivity.
  - discriminate.
Defined.

Section ValidRuns.

Variables (initial_capital fee_percent : Q).
Hypothesis capital_positive : 0 < initial_capital.
Hypothesis fee_below_1 : fee_percent < 1.

Lemma healthy_init : healthy (init_state initial_capital).
Proof. unfold healthy. cbn. repeat split; auto. Qed.

Lemma healthy_run (rows : list bar) :
  (forall r, In r rows -> 0 < close r) ->
  Forall healthy (states1 initial_capital fee_percent rows) /\
  healthy (final1 initial_capital fee_percent rows).
Proof.
  intro Hc. apply states1_invariant; [exact healthy_init|].
  intros s r Hr Hs.
  apply (@step1_healthy fee_percent fee_below_1 s r); [|exact Hs].
  apply Hc. destruct rows; [destruct Hr|now right].
Qed.

Lemma final_cash_healthy (rows : list bar) :
  (forall r, In r rows -> 0 < close r) ->
  finite (final_cash initial_capital fee_percent rows) = true /\
  0 < qv (final_cash initial_capital fee_percent rows).
Proof.
  intro Hc. destruct (healthy_run rows Hc) as (_ & H).
  destruct H as (Fc & Fs & Hcap & [(H0 & _)|(H1 & Hsh)]); unfold final_cash.
  - rewrite H0. cbn [Z.eqb]. auto.
  - rewrite H1. cbn [Z.eqb Pos.eqb].
    assert (Hne : rows <> []) by (intros ->; cbn in H1; lia).
    assert (Hl : 0 < last_close rows)
      by (unfold last_close; apply Hc, last_in, Hne).
    unfold liquidation_cash.
    destruct (@exit_cash_finite _ fee_percent (last_close rows) Fs)
      as (F & E).
    cbv zeta in F, E. split; [exact F|].
    rewrite E. apply exit_positive; assumption.
Qed.

End ValidRuns.

Section RoiAndCurve.

Variables (initial_capital fee_percent : Q).

Lemma position_col_last (rows : list bar) :
  rows <> [] ->
  iloc_last (map position (states1 initial_capital fee_percent rows))
  = Returned (position (final1 initial_capital fee_percent rows)).
Proof.
  intro Hne.
  assert (Hs : states1 initial_capital fee_percent rows <> []).
  { destruct rows; [congruence|discriminate]. }
  destruct (exists_last Hs) as (ss & x & Ex).
  pose proof (final1_last initial_capital fee_percent x Hne) as HL.
  rewrite Ex, last_last in HL.
  rewrite Ex, map_app. cbn [map]. rewrite iloc_last_app. now rewrite HL.
Qed.

Lemma Qdiv_scale_le (a b c : Q) :
  0 < c -> a <= b -> (a - c) / c * 100 <= (b - c) / c * 100.
Proof.
  intros Hc H. unfold Qdiv.
  assert (Hk : 0 < / c) by now apply Qinv_lt_0_compat.
  set (k := / c) in *. nra.
Qed.

End RoiAndCurve.

(** X11. On valid inputs the ROI never exceeds the return shown by the last
    point of the curve: it is that return when the run ends out of
    position, and the return of that point less the exit fee when a
    position is still open at the last bar. *)
Theorem roi_at_most_final_curve_return (rows : list bar)
  (initial_capital fee_percent : Q) :
  0 < initial_capital -> 0 <= fee_percent -> fee_percent < 1 ->
  (forall r, In r rows -> 0 < close r) ->
  rows <> [] ->
  exists res v p,
    backtest_ema rows initial_capital fee_percent = Returned res /\
    iloc_last (portfolio_value res) = Returned v /\
    iloc_last (position_col res) = Returned p /\
    qv (roi res) <= (qv v - initial_capital) / initial_capital * 100 /\
    (p = 0%Z ->
     qv (roi res) == (qv v - initial_capital) / initial_capital * 100) /\
    (p = 1%Z ->
     qv (roi res)
     == (qv v - qv v * fee_percent - initial_capital)
        / initial_capital * 100).
Proof.
  intros Hcap Hf0 Hf1 Hc Hne.
  destruct (@final_cash_healthy initial_capital fee_percent Hcap Hf1 rows Hc)
    as (F & _).
  assert (Hz : ~ initial_capital == 0) by lra.
  destruct (@roi_of_cash initial_capital _ F Hz) as (q & Eq & G & V).
  rewrite backtest_ema_unfold, Eq. cbn [bind].
  do 3 eexists. split; [reflexivity|].
  cbn [portfolio_value position_col roi].
  split; [apply curve_last, Hne|]. split; [apply position_col_last, Hne|].
  rewrite V. clear q Eq G V.
  destruct (@healthy_run initial_capital fee_percent Hcap Hf1 rows Hc)
    as (_ & H).
  assert (Hl : 0 < last_close rows)
    by (unfold last_close; apply Hc, last_in, Hne).
  unfold final_cash, mark, liquidation_cash in *. fold (last_close rows).
  destruct H as (Fc & Fs & Hpos & [(H0 & _)|(H1 & Hsh)]).
  - rewrite H0 in *. cbn [Z.eqb].
    split; [apply Qle_refl|]. split; [reflexivity|discriminate].
  - rewrite H1 in *. cbn [Z.eqb Pos.eqb].
    destruct (@exit_cash_finite _ fee_percent (last_close rows) Fs)
      as (_ & E).
    cbv zeta in E. rewrite E.
    destruct (@nmul_finite (shares
                              (final1 initial_capital fee_percent rows))
                (Np (Fin (last_close rows))) Fs eq_refl) as (_ & E').
    rewrite E'. cbn [qv val qval].
    split; [|split; [discriminate|reflexivity]].
    apply Qdiv_scale_le; [exact Hcap|].
    set (s := qv (shares (final1 initial_capital fee_percent rows))) in *.
    assert (Ht : 0 <= s * last_close rows) by nra.
    set (t := s * last_close rows) in *.
    assert (0 <= t * fee_percent) by (apply Qmult_le_0_compat; assumption).
    lra.
Qed.

Lemma roi_at_most_final_curve_return_witness :
  exists res v p,
    backtest_ema [mkBar 100 0; mkBar 100 1; mkBar 110 1] 1000 (1 # 100)
    = Returned res /\
    iloc_last (portfolio_value res) = Returned v /\
    iloc_last (position_col res) = Returned p /\
    qv (roi res) <= (qv v - 1000) / 1000 * 100 /\
    (p = 0%Z -> qv (roi res) == (qv v - 1000) / 1000 * 100) /\
    (p = 1%Z ->
     qv (roi res) == (qv v - qv v * (1 # 100) - 1000) / 1000 * 100).
Proof.
  apply (@roi_at_most_final_curve_return
           [mkBar 100 0; mkBar 100 1; mkBar 110 1] 1000 (1 # 100)).
  - reflexivity.
  - discriminate.
  - reflexivity.
  - intros r [<-|[<-|[<-|[]]]]; reflexivity.
  - discriminate.
Defined.

Section TwoLoops.

Lemma step_cash_gap (f : num) (st : state) (s2 : state2) (r : bar) :
  cash_gap f st s2 -> cash_gap f (step1 f st r) (step2 f s2 r).
Proof.
  intros (Hp & Hs & H01 & Hc0 & Hc1). unfold step1, step2. rewrite Hp, Hs.
  destruct H01 as [H0|H1].
  - rewrite H0, (Hc0 H0). cbn [Z.eqb andb].
    destruct (signal r =? 1)%Z; unfold cash_gap; cbn;
      repeat split; auto; try congruence; try discriminate.
  - rewrite H1. cbn [Z.eqb Pos.eqb andb].
    destruct (signal r =? -1)%Z; unfold cash_gap; cbn;
      repeat split; auto; try congruence; try discriminate.
Qed.

End TwoLoops.

(** X13. Where the two loops differ: at every bar the second loop has the
    position and the shares of the first; out of position it has the same
    cash, and in position its cash variable holds the first loop's cash
    less the entry fee. *)
Theorem loops_differ_by_entry_fee (rows : list bar)
  (initial_capital fee_percent : Q) :
  Forall2 (cash_gap (Py fee_percent))
          (states1 initial_capital fee_percent rows)
          (states2 initial_capital fee_percent rows).
Proof.
  destruct rows as [|r0 rest]; [constructor|].
  assert (H0 : cash_gap (Py fee_percent) (init_state initial_capital)
                 (init_state2 initial_capital)).
  { unfold cash_gap. cbn. repeat split; auto. discriminate. }
  unfold states1, states2. constructor; [exact H0|].
  apply (@traces_related state state2 (cash_gap (Py fee_percent))
           (step1 (Py fee_percent)) (step2 (Py fee_percent)) rest); auto.
  intros s t r _. apply step_cash_gap.
Qed.

Section Pairs.

Lemma Forall2_zip_with {A B C D : Type} (R : A -> B -> Prop)
  (R' : C -> D -> Prop) (f : A -> bar -> C) (g : B -> bar -> D)
  (a : list A) (b : list B) (rows : list bar) :
  (forall x y r, R x y -> R' (f x r) (g y r)) ->
  Forall2 R a b -> Forall2 R' (zip_with f a rows) (zip_with g b rows).
Proof.
  intros Hfg H. revert rows. unfold zip_with.
  induction H as [|x y a b Hxy _ IH]; intros [|r rows]; cbn;
    constructor; auto.
Qed.

End Pairs.

(** ** The simulator of [app.py] *)

Section AppLoop.

Lemma app_loop_trace (rows : list bar) :
  forall (st : App.state) (acc : list num),
    App.loop rows st acc
    = (fold_left App.step rows st,
       acc ++ zip_with App.portfolio_value_at (trace App.step st rows) rows).
Proof.
  induction rows as [|r rest IH]; intros st acc.
  - cbn. now rewrite app_nil_r.
  - cbn [App.loop fold_left trace]. rewrite IH.
    unfold zip_with. cbn [combine map fst snd].
    now rewrite <- app_assoc.
Qed.

Lemma trace_snoc {S : Type} (step : S -> bar -> S) (l : list bar) (r : bar) :
  forall s,
    trace step s (l ++ [r])
    = trace step s l ++ [step (fold_left step l s) r].
Proof.
  induction l as [|x l IH]; intro s; [reflexivity|].
  cbn [app trace fold_left]. now rewrite IH.
Qed.

(** The last entry of what a walk records is computed from the state the
    walk ends in and the last bar. *)
Lemma zip_trace_last {S C : Type} (step : S -> bar -> S) (f : S -> bar -> C)
  (rows : list bar) (d : bar) (s : S) :
  rows <> [] ->
  iloc_last (zip_with f (trace step s rows) rows)
  = Returned (f (fold_left step rows s) (last rows d)).
Proof.
  intro Hne. destruct (exists_last Hne) as (l & r & ->).
  rewrite trace_snoc, last_last, fold_left_app. cbn [fold_left].
  unfold zip_with.
  rewrite combine_app_same by apply trace_length.
  cbn [combine]. rewrite map_app. cbn [map fst snd].
  apply iloc_last_app.
Qed.

End AppLoop.

Section AppRuns.

Variable initial_capital : Q.

Lemma app_portfolio (rows : list bar) :
  snd (App.loop rows (App.init_state initial_capital) [])
  = zip_with App.portfolio_value_at
      (trace App.step (App.init_state initial_capital) rows) rows.
Proof. now rewrite app_loop_trace. Qed.

Lemma app_portfolio_length (rows : list bar) :
  length (snd (App.loop rows (App.init_state initial_capital) []))
  = length rows.
Proof.
  rewrite app_portfolio. apply zip_with_length, trace_length.
Qed.

Lemma app_portfolio_last (rows : list bar) :
  rows <> [] ->
  iloc_last (snd (App.loop rows (App.init_state initial_capital) []))
  = Returned (App.portfolio_value_at
                (fold_left App.step rows (App.init_state initial_capital))
                (last rows (mkBar 0 0%Z))).
Proof. intro H. rewrite app_portfolio. now apply zip_trace_last. Qed.

End AppRuns.

(** X15. [app.py]'s simulator raises IndexError exactly on an empty frame;
    on a non-empty frame with a non-zero initial capital it returns a curve
    with one point per bar. *)
Theorem app_backtest_empty_frame (rows : list bar) (initial_capital : Q) :
  (App.backtest_ema rows initial_capital = Raised IndexError <-> rows = []) /\
  (rows <> [] -> ~ initial_capital == 0 ->
   exists portfolio roi_final,
     App.backtest_ema rows initial_capital = Returned (portfolio, roi_final) /\
     length portfolio = length rows).
Proof.
  unfold App.backtest_ema. split; [split|].
  - intro H. destruct rows as [|r0 rest]; [reflexivity|exfalso].
    assert (Hne : r0 :: rest <> []) by discriminate.
    rewrite (app_portfolio_last initial_capital Hne) in H. cbn [bind] in H.
    destruct (nsub _ _) as [x|x]; cbn in H;
      [destruct (Qeq_bool initial_capital 0)|]; discriminate H.
  - intros ->. reflexivity.
  - intros Hne Hz.
    rewrite (app_portfolio_last initial_capital Hne). cbn [bind].
    destruct (@ndiv_py_nonzero
                (nsub (App.portfolio_value_at
                         (fold_left App.step rows
                            (App.init_state initial_capital))
                         (last rows (mkBar 0 0%Z)))
                      (Py initial_capital))
                initial_capital Hz) as (q & ->).
    cbn [bind]. do 2 eexists. split; [reflexivity|].
    apply app_portfolio_length.
Qed.

Lemma app_backtest_empty_frame_witness :
  exists portfolio roi_final,
    App.backtest_ema [mkBar 100 0; mkBar 100 1; mkBar 110 1] 1000
    = Returned (portfolio, roi_final) /\
    length portfolio = 3%nat.
Proof.
  apply (proj2 (@app_backtest_empty_frame
                  [mkBar 100 0; mkBar 100 1; mkBar 110 1] 1000));
    discriminate.
Defined.


(** ** [app.py]'s simulator next to [backtest.py]'s without fee *)

Section Mirror.

Lemma nadd_finite (a b : num) :
  finite a = true -> finite b = true ->
  finite (nadd a b) = true /\ qv (nadd a b) = qv a + qv b.
Proof.
  intros Ha Hb. apply finite_val in Ha, Hb. unfold finite, qv.
  destruct a, b; cbn in *; try rewrite Ha; try rewrite Hb; cbn; auto.
Qed.

Lemma neqb_zero_of_Qlt (a : num) :
  finite a = true -> 0 < qv a -> neqb a (Py 0) = false.
Proof.
  intros Ha H. unfold neqb. rewrite (finite_val a Ha). cbn [val feqb].
  apply Qeq_bool_false_neq. lra.
Qed.

Lemma step_mirrors (a : App.state) (b : state) (r : bar) :
  0 < close r -> mirrors a b -> mirrors (App.step a r) (step1 (Py 0) b r).
Proof.
  intros Hc [(H0 & Hsh & Hpa & Fa & Fb & Hq & Hpos)
            |(H1 & Hba & Fa & Fb & Hq & Hpos)];
    unfold App.step, step1.
  - rewrite H0, Hpa. change (neqb (Py 0) (Py 0)) with true.
    change (ngt (Py 0) (Py 0)) with false.
    rewrite !andb_true_r, !andb_false_r. cbn [Z.eqb andb].
    destruct (signal r =? 1)%Z.
    + assert (Hz : ~ close r == 0) by lra.
      destruct (@np_div_finite (App.balance a) (close r) Fa Hz) as (F & E).
      destruct (@entry_shares_finite (capital b) 0 (close r) Fb Hz)
        as (F' & E').
      right. cbn [position shares capital App.position App.balance].
      repeat split; auto.
      * rewrite E, E', Hq. field. exact Hz.
      * rewrite E'. apply entry_positive; [exact Hpos|reflexivity|exact Hc].
    + left. repeat split; auto.
  - assert (Fpos : 0 < qv (App.position a)) by (rewrite Hq; exact Hpos).
    rewrite H1, (neqb_zero_of_Qlt _ Fa Fpos), (ngt_zero_of_Qlt _ Fa Fpos).
    rewrite !andb_true_r, !andb_false_r. cbn [Z.eqb Pos.eqb andb].
    destruct (signal r =? -1)%Z.
    + destruct (@nmul_finite (App.position a) (Np (Fin (close r))) Fa eq_refl)
        as (F & E).
      destruct (@exit_cash_finite (shares b) 0 (close r) Fb) as (F' & E').
      cbv zeta in F', E'.
      left. cbn [position shares capital App.position App.balance].
      repeat split; auto.
      * rewrite E, E', Hq. cbn [qv val qval]. ring.
      * rewrite E'. apply exit_positive; [exact Hpos|reflexivity|exact Hc].
    + right. repeat split; auto.
Qed.

Lemma value_mirrors (a : App.state) (b : state) (r : bar) :
  mirrors a b -> same_value (App.portfolio_value_at a r) (mark b r).
Proof.
  intros [(H0 & Hsh & Hpa & Fa & Fb & Hq & Hpos)
         |(H1 & Hba & Fa & Fb & Hq & Hpos)];
    unfold App.portfolio_value_at, mark, same_value.
  - rewrite H0, Hpa. change (ngt (Py 0) (Py 0)) with false.
    cbn [Z.eqb].
    destruct (@nadd_finite (App.balance a) (Py 0) Fa eq_refl) as (F & E).
    split; [exact F|]. split; [exact Fb|].
    rewrite E, Hq. cbn [qv val qval]. ring.
  - assert (Fpos : 0 < qv (App.position a)) by (rewrite Hq; exact Hpos).
    rewrite H1, Hba, (ngt_zero_of_Qlt _ Fa Fpos). cbn [Z.eqb Pos.eqb].
    destruct (@nmul_finite (App.position a) (Np (Fin (close r))) Fa eq_refl)
      as (F & E).
    destruct (@nmul_finite (shares b) (Np (Fin (close r))) Fb eq_refl)
      as (F' & E').
    destruct (@nadd_finite (Py 0) _ eq_refl F) as (F2 & E2).
    split; [exact F2|]. split; [exact F'|].
    rewrite E2, E, E', Hq. cbn [qv val qval]. ring.
Qed.

Lemma final_cash_mirrors (a : App.state) (initial_capital : Q)
  (rows : list bar) :
  mirrors a (final1 initial_capital 0 rows) ->
  same_value (App.portfolio_value_at a (last rows (mkBar 0 0%Z)))
             (final_cash initial_capital 0 rows).
Proof.
  intro H. pose proof (value_mirrors (last rows (mkBar 0 0%Z)) H) as V.
  unfold final_cash, mark, same_value in *.
  destruct H as [(H0 & _)|(H1 & Hba & Fa & Fb & Hq & Hpos)].
  - rewrite H0 in *. exact V.
  - rewrite H1 in *. cbn [Z.eqb Pos.eqb] in *.
    destruct V as (V1 & V2 & V3). split; [exact V1|].
    unfold liquidation_cash. fold (last_close rows).
    destruct (@exit_cash_finite (shares (final1 initial_capital 0 rows)) 0
                (last_close rows) Fb) as (F' & E').
    cbv zeta in F', E'. split; [exact F'|].
    rewrite V3, E'.
    destruct (@nmul_finite (shares (final1 initial_capital 0 rows))
                (Np (Fin (last_close rows))) Fb eq_refl) as (_ & E).
    unfold last_close in *. rewrite E. cbn [qv val qval]. ring.
Qed.

Lemma app_first_bar_idle (initial_capital : Q) (r0 : bar) :
  signal r0 <> 1%Z ->
  App.step (App.init_state initial_capital) r0
  = App.init_state initial_capital.
Proof.
  intro H. unfold App.step, App.init_state. cbn [App.position].
  change (ngt (Py 0) (Py 0)) with false. rewrite andb_false_r.
  destruct (Z.eqb_spec (signal r0) 1); [contradiction|reflexivity].
Qed.

(** From a first bar without Buy signal on, the two simulators walk side by
    side. *)
Lemma mirrored_runs (initial_capital : Q) (r0 : bar) (rest : list bar) :
  signal r0 <> 1%Z -> 0 < initial_capital ->
  (forall r, In r rest -> 0 < close r) ->
  Forall2 mirrors
    (trace App.step (App.init_state initial_capital) (r0 :: rest))
    (states1 initial_capital 0 (r0 :: rest)) /\
  mirrors (fold_left App.step (r0 :: rest) (App.init_state initial_capital))
          (final1 initial_capital 0 (r0 :: rest)).
Proof.
  intros Hs Hcap Hc.
  assert (M0 : mirrors (App.init_state initial_capital)
                       (init_state initial_capital)).
  { left. cbn. repeat split; auto; reflexivity. }
  destruct (@traces_related App.state state mirrors App.step
              (step1 (Py 0)) rest)
    with (s := App.init_state initial_capital)
         (t := init_state initial_capital) as (A & B).
  { intros s t r Hr. apply step_mirrors, Hc, Hr. }
  { exact M0. }
  cbn [trace fold_left]. rewrite (@app_first_bar_idle initial_capital r0 Hs).
  split; [|exact B]. unfold states1. constructor; assumption.
Qed.

(** Two runs that walk side by side return the same amounts. *)
Lemma mirrored_results (initial_capital : Q) (rows : list bar) :
  rows <> [] -> ~ initial_capital == 0 ->
  Forall2 mirrors (trace App.step (App.init_state initial_capital) rows)
          (states1 initial_capital 0 rows) ->
  mirrors (fold_left App.step rows (App.init_state initial_capital))
          (final1 initial_capital 0 rows) ->
  exists portfolio roi_final res,
    App.backtest_ema rows initial_capital = Returned (portfolio, roi_final) /\
    backtest_ema rows initial_capital 0 = Returned res /\
    Forall2 same_value portfolio (portfolio_value res) /\
    same_value roi_final (roi res).
Proof.
  intros Hne Hz A Bf.
  destruct (@final_cash_mirrors _ _ _ Bf) as (Fa & Fb & Hv).
  destruct (@roi_of_cash initial_capital _ Fa Hz) as (q1 & E1 & G1 & V1).
  destruct (@roi_of_cash initial_capital _ Fb Hz) as (q2 & E2 & G2 & V2).
  unfold App.backtest_ema.
  rewrite (@app_portfolio_last initial_capital _ Hne). cbn [bind].
  rewrite E1. cbn [bind].
  rewrite backtest_ema_unfold, E2. cbn [bind].
  do 3 eexists. split; [reflexivity|]. split; [reflexivity|].
  cbn [portfolio_value roi]. split.
  - rewrite app_portfolio, curve_mark.
    apply (@Forall2_zip_with _ _ _ _ mirrors same_value
             App.portfolio_value_at mark); [|exact A].
    intros x y r. apply value_mirrors.
  - unfold same_value. split; [exact G1|]. split; [exact G2|].
    rewrite V1, V2, Hv. reflexivity.
Qed.

End Mirror.

(** X17. [app.py]'s simulator is [backtest.py]'s run without fee: on
    positive closes, with a positive initial capital and no Buy signal on
    the first bar, both return, their curves hold the same amounts bar by
    bar, and their ROIs are the same number. *)
Theorem app_is_backtest_without_fee (initial_capital : Q) (r0 : bar)
  (rest : list bar) :
  signal r0 <> 1%Z -> 0 < initial_capital ->
  (forall r, In r rest -> 0 < close r) ->
  exists portfolio roi_final res,
    App.backtest_ema (r0 :: rest) initial_capital
    = Returned (portfolio, roi_final) /\
    backtest_ema (r0 :: rest) initial_capital 0 = Returned res /\
    Forall2 same_value portfolio (portfolio_value res) /\
    same_value roi_final (roi res).
Proof.
  intros Hs Hcap Hc.
  destruct (@mirrored_runs initial_capital r0 rest Hs Hcap Hc) as (A & B).
  apply mirrored_results.
  - discriminate.
  - lra.
  - exact A.
  - exact B.
Qed.

Lemma app_is_backtest_without_fee_witness :
  exists portfolio roi_final res,
    App.backtest_ema [mkBar 100 0; mkBar 100 1; mkBar 110 (-1); mkBar 90 1]
                     1000
    = Returned (portfolio, roi_final) /\
    backtest_ema [mkBar 100 0; mkBar 100 1; mkBar 110 (-1); mkBar 90 1]
                 1000 0
    = Returned res /\
    Forall2 same_value portfolio (portfolio_value res) /\
    same_value roi_final (roi res).
Proof.
  apply (@app_is_backtest_without_fee 1000 (mkBar 100 0)
           [mkBar 100 1; mkBar 110 (-1); mkBar 90 1]).
  - discriminate.
  - reflexivity.
  - intros r [<-|[<-|[<-|[]]]]; reflexivity.
Defined.

(** ** The two buttons of [app.py] *)

Section Buttons.

Import Pandas.

Lemma last_is_nth {A : Type} (l : list A) (d : A) :
  l <> [] -> last l d = nth (length l - 1) l d.
Proof.
  intro H. destruct (exists_last H) as (l' & a & ->).
  rewrite last_last, length_app. cbn [length].
  replace (length l' + 1 - 1)%nat with (length l') by lia.
  now rewrite nth_middle.
Qed.

Lemma iloc_last_nonempty {A : Type} (l : list A) (d : A) :
  l <> [] -> iloc_last l = Returned (last l d).
Proof.
  destruct l as [|x l]; [congruence|]. intros _.
  now rewrite iloc_last_cons, last_cons.
Qed.

Lemma app_backtest_returns (rows : list bar) (initial_capital : Q) :
  rows <> [] -> ~ initial_capital == 0 ->
  exists portfolio roi_final,
    App.backtest_ema rows initial_capital = Returned (portfolio, roi_final) /\
    length portfolio = length rows.
Proof.
  intros Hne Hz. unfold App.backtest_ema.
  rewrite (@app_portfolio_last initial_capital _ Hne). cbn [bind].
  destruct (@ndiv_py_nonzero
              (nsub (App.portfolio_value_at
                       (fold_left App.step rows
                          (App.init_state initial_capital))
                       (last rows (mkBar 0 0%Z)))
                    (Py initial_capital))
              initial_capital Hz) as (q & ->).
  cbn [bind]. do 2 eexists. split; [reflexivity|].
  apply app_portfolio_length.
Qed.

Lemma rows_of_length (closes es el : list Q) (sg : list Z) :
  length sg = length closes ->
  length (rows_of (mkFrame closes (Some es) (Some el) (Some sg)))
  = length closes.
Proof.
  intro H. unfold rows_of. cbn [close_col signal_col].
  rewrite length_map, length_combine. lia.
Qed.

Lemma rows_of_closes (closes es el : list Q) (sg : list Z) (r : bar) :
  In r (rows_of (mkFrame closes (Some es) (Some el) (Some sg))) ->
  In (close r) closes.
Proof.
  unfold rows_of. cbn [close_col signal_col]. intro H.
  apply in_map_iff in H. destruct H as ((c & s) & <- & Hin).
  cbn [close fst]. apply (in_combine_l _ _ _ _ Hin).
Qed.

(** The frame the engine leaves, with what is known of its signals. *)
Lemma engine_frame (df : frame) (sw lw : Z) :
  (1 <= sw)%Z -> (1 <= lw)%Z ->
  exists sg,
    calculate_ema_strategy df sw lw
    = (mkFrame (close_col df)
         (Some (ewm ((inject_Z sw - 1) / 2) (close_col df)))
         (Some (ewm ((inject_Z lw - 1) / 2) (close_col df)))
         (Some sg),
       Returned tt) /\
    length sg = length (close_col df) /\
    forall i, (i < length (close_col df))%nat ->
      nth i sg 0%Z
      = signal_of (nth i (ewm ((inject_Z sw - 1) / 2) (close_col df)) 0)
                  (nth i (ewm ((inject_Z lw - 1) / 2) (close_col df)) 0).
Proof.
  intros Hs Hl. rewrite (calculate_ema_strategy_valid df Hs Hl).
  eexists. split; [reflexivity|]. split.
  - rewrite !loc_assign_length. apply repeat_length.
  - intros i Hi. apply signal_column_nth; [apply ewm_length ..|exact Hi].
Qed.

Lemma signal_of_same (x : Q) : signal_of x x = 0%Z.
Proof. unfold signal_of. now rewrite Qcompare_refl_eq. Qed.

(** The rows the engine hands to the simulator: a first bar without
    signal, then the rest. *)
Lemma engine_rows (df : frame) (sw lw : Z) :
  (1 <= sw)%Z -> (1 <= lw)%Z -> close_col df <> [] ->
  exists c0 rest,
    rows_of (fst (calculate_ema_strategy df sw lw)) = mkBar c0 0 :: rest /\
    length (mkBar c0 0 :: rest) = length (close_col df) /\
    forall r, In r (mkBar c0 0 :: rest) -> In (close r) (close_col df).
Proof.
  intros Hs Hl Hne.
  destruct (engine_frame df Hs Hl) as (sg & E & Hlen & Hnth).
  rewrite E. cbn [fst].
  pose proof (@rows_of_length (close_col df)
                (ewm ((inject_Z sw - 1) / 2) (close_col df))
                (ewm ((inject_Z lw - 1) / 2) (close_col df)) sg Hlen) as HL.
  pose proof (@rows_of_closes (close_col df)
                (ewm ((inject_Z sw - 1) / 2) (close_col df))
                (ewm ((inject_Z lw - 1) / 2) (close_col df)) sg) as HC.
  revert HL HC. unfold rows_of at 1 2. cbn [close_col signal_col].
  destruct (close_col df) as [|c0 cs] eqn:Ec; [congruence|].
  destruct sg as [|s0 ss]; [discriminate Hlen|].
  assert (H0 : s0 = 0%Z).
  { specialize (Hnth 0%nat). cbn in Hnth. rewrite Hnth by lia.
    apply signal_of_same. }
  subst s0. cbn [combine map fst snd]. intros HL HC.
  do 2 eexists. split; [reflexivity|]. split; [exact HL|exact HC].
Qed.

End Buttons.

(** X18. With what the widgets allow (windows of at least 1, a non-zero
    capital) the backtest button always gets as far as its report: an empty
    frame gives the no-data message, any other frame the ROI and a curve
    with one point per candle; neither the engine nor the simulator raises
    on the way. *)
Theorem backtest_button_never_fails (df : frame)
  (short_window long_window : Z) (initial_capital : Q) :
  (1 <= short_window)%Z -> (1 <= long_window)%Z ->
  ~ initial_capital == 0 ->
  (close_col df = [] ->
   Ui.on_backtest_button df short_window long_window initial_capital
   = Ui.NoData) /\
  (close_col df <> [] ->
   exists portfolio roi_final,
     Ui.on_backtest_button df short_window long_window initial_capital
     = Ui.Report portfolio roi_final /\
     length portfolio = length (close_col df)).
Proof.
  intros Hs Hl Hz. unfold Ui.on_backtest_button. split.
  - intros ->. reflexivity.
  - intro Hne.
    destruct (engine_rows df Hs Hl Hne) as (c0 & rest & Er & Hlen & _).
    destruct (engine_frame df Hs Hl) as (sg & E & _).
    rewrite E in *. cbn [fst] in Er.
    destruct (close_col df) as [|c cs] eqn:Ec; [congruence|].
    rewrite Er.
    destruct (@app_backtest_returns (mkBar c0 0 :: rest) initial_capital)
      as (portfolio & roi_final & -> & HL); [discriminate|exact Hz|].
    do 2 eexists. split; [reflexivity|]. now rewrite HL.
Qed.

Lemma backtest_button_never_fails_witness :
  exists portfolio roi_final,
    Ui.on_backtest_button (load [10; 20; 10]) 1 2 1000
    = Ui.Report portfolio roi_final /\
    length portfolio = 3%nat.
Proof.
  apply (proj2 (@backtest_button_never_fails (load [10; 20; 10]) 1 2 1000
                  ltac:(lia) ltac:(lia) ltac:(discriminate))).
  discriminate.
Defined.

(** X19. What the backtest button reports is [backtest.py]'s result
    without fee: on a non-empty frame of positive closes, with valid
    windows and a positive capital, the curve and the ROI it shows are the
    amounts [backtest.py]'s simulator returns for the engine's signals at a
    fee rate of 0. *)
Theorem backtest_button_matches_backtest (df : frame)
  (short_window long_window : Z) (initial_capital : Q) :
  (1 <= short_window)%Z -> (1 <= long_window)%Z ->
  0 < initial_capital ->
  close_col df <> [] ->
  (forall c, In c (close_col df) -> 0 < c) ->
  exists portfolio roi_final res,
    Ui.on_backtest_button df short_window long_window initial_capital
    = Ui.Report portfolio roi_final /\
    backtest_ema
      (rows_of (fst (calculate_ema_strategy df short_window long_window)))
      initial_capital 0
    = Returned res /\
    Forall2 same_value portfolio (portfolio_value res) /\
    same_value roi_final (roi res).
Proof.
  intros Hs Hl Hcap Hne Hc. unfold Ui.on_backtest_button.
  destruct (engine_rows df Hs Hl Hne) as (c0 & rest & Er & _ & Hin).
  destruct (engine_frame df Hs Hl) as (sg & E & _).
  rewrite E in *. cbn [fst] in *.
  destruct (close_col df) as [|c cs] eqn:Ec; [congruence|].
  rewrite Er.
  destruct (@mirrored_runs initial_capital (mkBar c0 0) rest) as (A & B).
  - discriminate.
  - exact Hcap.
  - intros r Hr. apply Hc, Hin. now right.
  - destruct (@mirrored_results initial_capital (mkBar c0 0 :: rest))
      as (portfolio & roi_final & res & -> & Hb & Hcurve & Hroi);
      [discriminate|lra|exact A|exact B|].
    exists portfolio, roi_final, res. auto.
Qed.

Lemma backtest_button_matches_backtest_witness :
  exists portfolio roi_final res,
    Ui.on_backtest_button (load [10; 20; 10]) 1 2 1000
    = Ui.Report portfolio roi_final /\
    backtest_ema
      (rows_of (fst (calculate_ema_strategy (load [10; 20; 10]) 1 2)))
      1000 0
    = Returned res /\
    Forall2 same_value portfolio (portfolio_value res) /\
    same_value roi_final (roi res).
Proof.
  apply (@backtest_button_matches_backtest (load [10; 20; 10]) 1 2 1000).
  - lia.
  - lia.
  - reflexivity.
  - discriminate.
  - intros c [<-|[<-|[<-|[]]]]; reflexivity.
Defined.

(** X20. The real-trade button only reports: with valid windows, on an
    empty frame it reports the IndexError it catches, and on any other
    frame it reports a Buy at the last close when the short EMA of the last
    bar is above the long one, a Sell at the last close when it is below,
    and no signal when they are equal. *)
Theorem trade_button_reports_last_bar (df : frame)
  (short_window long_window : Z) :
  (1 <= short_window)%Z -> (1 <= long_window)%Z ->
  (close_col df = [] ->
   Ui.on_trade_button df short_window long_window
   = Ui.TradeFailed IndexError) /\
  (close_col df <> [] ->
   exists es el,
     ema_short (fst (calculate_ema_strategy df short_window long_window))
     = Some es /\
     ema_long (fst (calculate_ema_strategy df short_window long_window))
     = Some el /\
     Ui.on_trade_button df short_window long_window
     = match last es 0 ?= last el 0 with
       | Gt => Ui.BuyDetected (last (close_col df) 0)
       | Lt => Ui.SellDetected (last (close_col df) 0)
       | Eq => Ui.NoSignal
       end).
Proof.
  intros Hs Hl. unfold Ui.on_trade_button.
  destruct (engine_frame df Hs Hl) as (sg & E & Hlen & Hnth).
  rewrite E. cbn [fst ema_short ema_long close_col].
  unfold Ui.signals. cbn [signal_col]. split.
  - intro Hc. rewrite Hc in Hlen. destruct sg; [reflexivity|discriminate].
  - intro Hne. do 2 eexists. split; [reflexivity|]. split; [reflexivity|].
    assert (Hsg : sg <> []).
    { intros ->. destruct (close_col df); [congruence|discriminate]. }
    rewrite (iloc_last_nonempty 0%Z Hsg), (iloc_last_nonempty 0 Hne).
    assert (Hn : (length (close_col df) - 1 < length (close_col df))%nat).
    { destruct (close_col df); [congruence|cbn; lia]. }
    rewrite (last_is_nth 0%Z Hsg), Hlen, (Hnth _ Hn).
    assert (Hes : Pandas.ewm ((inject_Z short_window - 1) / 2) (close_col df) <> []).
    { intro H0. apply (f_equal (@length Q)) in H0.
      rewrite ewm_length in H0.
      destruct (close_col df); [congruence|discriminate]. }
    assert (Hel : Pandas.ewm ((inject_Z long_window - 1) / 2) (close_col df) <> []).
    { intro H0. apply (f_equal (@length Q)) in H0.
      rewrite ewm_length in H0.
      destruct (close_col df); [congruence|discriminate]. }
    rewrite (last_is_nth 0 Hes), (last_is_nth 0 Hel), !ewm_length.
    unfold signal_of.
    destruct (nth _ _ 0 ?= nth _ _ 0); reflexivity.
Qed.

Lemma trade_button_reports_last_bar_witness :
  Ui.on_trade_button (load [10; 20; 10]) 1 2 = Ui.SellDetected 10 /\
  Ui.on_trade_button (load []) 1 2 = Ui.TradeFailed IndexError.
Proof.
  destruct (@trade_button_reports_last_bar (load [10; 20; 10]) 1 2
              ltac:(lia) ltac:(lia)) as (_ & H).
  destruct (@trade_button_reports_last_bar (load []) 1 2
              ltac:(lia) ltac:(lia)) as (H0 & _).
  split; [|apply H0; reflexivity].
  destruct H as (es & el & Es & El & ->); [discriminate|].
  inversion Es. inversion El. reflexivity.
Defined.

(** ** Index 0 and the state machine, in both simulators *)

(** C4 as stated fails for [app.py]'s simulator: its walk starts at index 0,
    and a Buy signal on the first bar opens a position there, which the
    later bars then value. *)
Lemma app_index0_buy_counterexample :
  App.step (App.init_state 1000) (mkBar 100 1)
  = App.mkState (Np (Fin (1000 / 100))) (Py 0) /\
  ngt (App.position (App.step (App.init_state 1000) (mkBar 100 1))) (Py 0)
  = true /\
  exists portfolio roi_final,
    App.backtest_ema [mkBar 100 1; mkBar 110 0] 1000
    = Returned (portfolio, roi_final) /\
    qv roi_final == 10.
Proof.
  split; [reflexivity|]. split; [reflexivity|].
  do 2 eexists. split; reflexivity.
Qed.

(** C4, amended. In [backtest.py]'s simulator index 0 never triggers a
    transition: whatever the signal of the first bar, the call does the
    same; when it returns, the position at index 0 is 0 and the portfolio
    value at index 0 is the initial capital; and it returns whenever the
    initial capital is not zero.  [app.py]'s simulator walks index 0 like
    any other bar: without a Buy signal there it stays as it starts and
    records the initial capital, and the frames the engine leaves never
    carry a signal on their first bar. *)
Theorem index0_never_trades (initial_capital fee_percent : Q)
  (r0 : bar) (rest : list bar) (df : frame) (short_window long_window : Z) :
  (forall s : Z,
     backtest_ema (mkBar (close r0) s :: rest) initial_capital fee_percent
     = backtest_ema (r0 :: rest) initial_capital fee_percent) /\
  (forall res,
     backtest_ema (r0 :: rest) initial_capital fee_percent = Returned res ->
     nth_error (position_col res) 0 = Some 0%Z /\
     nth_error (portfolio_value res) 0 = Some (Py initial_capital)) /\
  (~ initial_capital == 0 ->
   exists res,
     backtest_ema (r0 :: rest) initial_capital fee_percent = Returned res) /\
  (signal r0 <> 1%Z ->
   App.step (App.init_state initial_capital) r0
   = App.init_state initial_capital /\
   nth_error (snd (App.loop (r0 :: rest) (App.init_state initial_capital) []))
             0
   = Some (Py (initial_capital + 0))) /\
  ((1 <= short_window)%Z -> (1 <= long_window)%Z -> close_col df <> [] ->
   exists c0 others,
     rows_of (fst (calculate_ema_strategy df short_window long_window))
     = mkBar c0 0 :: others /\
     App.step (App.init_state initial_capital) (mkBar c0 0)
     = App.init_state initial_capital /\
     nth_error (snd (App.loop (mkBar c0 0 :: others)
                       (App.init_state initial_capital) [])) 0
     = Some (Py (initial_capital + 0))).
Proof.
  assert (Happ : forall (b : bar) (l : list bar),
             signal b <> 1%Z ->
             App.step (App.init_state initial_capital) b
             = App.init_state initial_capital /\
             nth_error (snd (App.loop (b :: l)
                               (App.init_state initial_capital) [])) 0
             = Some (Py (initial_capital + 0))).
  { intros b l Hb.
    pose proof (@app_first_bar_idle initial_capital b Hb) as Hidle.
    split; [exact Hidle|].
    rewrite app_portfolio. cbn [trace]. rewrite Hidle.
    reflexivity. }
  split; [|split; [|split; [|split]]].
  - intro s. rewrite !backtest_ema_unfold.
    assert (Hc : final_cash initial_capital fee_percent
                   (mkBar (close r0) s :: rest)
                 = final_cash initial_capital fee_percent (r0 :: rest)).
    { unfold final_cash, liquidation_cash, last_close, final1.
      cbn [tl]. rewrite !last_cons.
      destruct rest as [|b rest]; [reflexivity|].
      rewrite !last_cons. reflexivity. }
    rewrite Hc. reflexivity.
  - intros res H. rewrite backtest_ema_unfold in H.
    destruct (ndiv _ _) as [q|e]; [|discriminate].
    cbn [bind] in H. inversion H. split; reflexivity.
  - apply backtest_ema_returns.
  - apply Happ.
  - intros Hs Hl Hne.
    destruct (engine_rows df Hs Hl Hne) as (c0 & others & Er & _).
    exists c0, others. split; [exact Er|].
    apply Happ. discriminate.
Qed.

Lemma index0_never_trades_witness :
  (exists res,
     backtest_ema [mkBar 100 1; mkBar 110 (-1)] 1000 (1 # 100) = Returned res /\
     nth_error (position_col res) 0 = Some 0%Z /\
     nth_error (portfolio_value res) 0 = Some (Py 1000)) /\
  (App.step (App.init_state 1000) (mkBar 100 (-1)) = App.init_state 1000 /\
   nth_error (snd (App.loop [mkBar 100 (-1); mkBar 110 1]
                     (App.init_state 1000) [])) 0
   = Some (Py (1000 + 0))) /\
  (exists c0 others,
     rows_of (fst (calculate_ema_strategy (load [10; 20; 10]) 1 2))
     = mkBar c0 0 :: others /\
     App.step (App.init_state 1000) (mkBar c0 0) = App.init_state 1000 /\
     nth_error (snd (App.loop (mkBar c0 0 :: others)
                       (App.init_state 1000) [])) 0
     = Some (Py (1000 + 0))).
Proof.
  destruct (@index0_never_trades 1000 (1 # 100) (mkBar 100 1)
              [mkBar 110 (-1)] (load [10; 20; 10]) 1 2)
    as (_ & H2 & H3 & _ & H5).
  destruct (@index0_never_trades 1000 (1 # 100) (mkBar 100 (-1))
              [mkBar 110 1] (load [10; 20; 10]) 1 2)
    as (_ & _ & _ & H4 & _).
  split; [|split].
  - destruct H3 as (res & Hres); [discriminate|].
    exists res. split; [exact Hres|]. apply H2. exact Hres.
  - apply H4. discriminate.
  - apply H5; [lia|lia|discriminate].
Defined.



